(** * Insight-Hub: the forecasting core (mlAlgorithms / mockData)

    A shallow embedding of the TypeScript forecasting functions
    [linearRegression], [polynomialRegression], [solveNormalEquations],
    [gaussianElimination], [movingAverage], [detectSeasonality] and
    [generateEnhancedPredictions], and the properties proved about them;
    further on, [generatePredictions], [generateHistoricalData] and the
    constant [mockData] of mockData.ts.

    Numbers.  A JavaScript [number] is modelled by an exact rational [Q]:
    every statement below is a statement of exact arithmetic, compared with
    [==] (Qeq).  Rounding, NaN and the infinities of IEEE doubles are outside
    the model, with one exception: the two products that decide the trend
    label sit on a threshold, so they are rounded as the double
    multiplication rounds them ([fmul]).  Indices, lengths and degrees are
    [nat]; the window and the horizon, which the source receives as plain
    numbers, are [Z].

    Ambient effects.  [Math.random()] and [new Date().getMonth()] are read
    from an ambient record indexed by the number of calls made so far, and
    the call counters are threaded explicitly.  [Math.sin] is not
    rational-valued, so it is a field of the same record: every theorem
    holds for any function put there.

    Exceptions.  The only places where the source can raise are property
    reads on [undefined] ([A[0][0]] on an empty matrix, [X[0].length] on an
    empty design matrix); these return [Throws]. *)

From Stdlib Require Import String.
From Stdlib Require Import QArith Qabs Qminmax ZArith List Bool Lia Lqa.
From Stdlib Require Import Qround Qpower Qreduction.
Import ListNotations.

Local Open Scope Q_scope.

(** ** JavaScript primitives used by the source *)

Module JS.

(** Outcome of a call: a value, or a TypeError. *)
Inductive outcome (A : Type) : Type :=
| Returns (a : A)
| Throws.
Arguments Returns {A} a.
Arguments Throws {A}.

Definition bind {A B} (o : outcome A) (k : A -> outcome B) : outcome B :=
  match o with
  | Returns a => k a
  | Throws => Throws
  end.

Definition of_nat (n : nat) : Q := inject_Z (Z.of_nat n).

(** [x < y] on numbers. *)
Definition ltb (x y : Q) : bool := negb (Qle_bool y x).

(** [Math.pow(x, k)] for a natural exponent; [Math.pow(0, 0)] is 1. *)
Definition Math_pow (x : Q) (k : nat) : Q := Qpower x (Z.of_nat k).

(** [Math.floor(w / 2)] and [Math.ceil(w / 2)] for an integer [w]. *)
Definition floor_half (w : Z) : Z := (w / 2)%Z.
Definition ceil_half (w : Z) : Z := (- ((- w) / 2))%Z.

(** [a[i]]: [None] stands for [undefined]. *)
Definition get (a : list Q) (i : nat) : option Q := nth_error a i.

(** [v || d] where [v] is a number or [undefined]: 0 and [undefined]
    are falsy. *)
Definition or_else (v : option Q) (d : Q) : Q :=
  match v with
  | Some x => if Qeq_bool x 0 then d else x
  | None => d
  end.

(** [new Array(n).fill(0)]. *)
Definition zeros (n : nat) : list Q := repeat 0 n.

(** [a[i] = v].  Inside the array the slot is overwritten; at or past the
    end the array is lengthened so that [i] becomes its last index.  Slots
    skipped over would be holes; they are written as 0 here, and no
    assignment of the source skips a slot. *)
Definition set (a : list Q) (i : nat) (v : Q) : list Q :=
  if (i <? length a)%nat
  then firstn i a ++ v :: skipn (S i) a
  else a ++ repeat 0 (i - length a) ++ [v].

(** Relative index of [slice]: negative counts from the end, and the
    result is clamped to [0, len]. *)
Definition rel_index (len : nat) (k : Z) : nat :=
  if (k <? 0)%Z then Z.to_nat (Z.max (Z.of_nat len + k) 0)
  else Z.to_nat (Z.min k (Z.of_nat len)).

(** [a.slice(start, end)]. *)
Definition slice {A} (a : list A) (start end_ : Z) : list A :=
  let s := rel_index (length a) start in
  let e := rel_index (length a) end_ in
  firstn (e - s) (skipn s a).

(** [a.slice(start)]. *)
Definition slice_from {A} (a : list A) (start : Z) : list A :=
  skipn (rel_index (length a) start) a.

(** [a.reduce((acc, x, idx) => f acc x idx, init)]. *)
Fixpoint reduce_from {A B} (f : B -> A -> nat -> B) (a : list A)
         (idx : nat) (acc : B) : B :=
  match a with
  | [] => acc
  | x :: t => reduce_from f t (S idx) (f acc x idx)
  end.

Definition reduce {A B} (f : B -> A -> nat -> B) (a : list A) (init : B) : B :=
  reduce_from f a 0 init.

(** [a.reduce((sum, val) => sum + val, 0)]. *)
Definition sum (a : list Q) : Q := reduce (fun s v _ => s + v) a 0.

End JS.

Import JS.

(** Reading a slot that the surrounding code keeps in range. *)
Definition at_ (a : list Q) (i : nat) : Q := nth i a 0.
Definition at2 (m : list (list Q)) (i j : nat) : Q := nth j (nth i m []) 0.

(** ** mockData.ts *)

Record MetricData := {
  month : string;
  value : Q;
  predicted : option bool
}.

Record LinearFit := {
  slope : Q;
  intercept : Q;
  lin_r2 : Q
}.

Definition linearRegression (data : list Q) : LinearFit :=
  let n := length data in
  if (n <? 2)%nat then
    {| slope := 0; intercept := or_else (get data 0) 0; lin_r2 := 0 |}
  else
    let x := map of_nat (seq 0 n) in
    let sumX := reduce (fun a b _ => a + b) x 0 in
    let sumY := reduce (fun a b _ => a + b) data 0 in
    let sumXY := reduce (fun acc xi i => acc + xi * at_ data i) x 0 in
    let sumXX := reduce (fun acc xi _ => acc + xi * xi) x 0 in
    let sumYY := reduce (fun acc yi _ => acc + yi * yi) data 0 in
    let slope := (of_nat n * sumXY - sumX * sumY)
                 / (of_nat n * sumXX - sumX * sumX) in
    let intercept := (sumY - slope * sumX) / of_nat n in
    let meanY := sumY / of_nat n in
    let ssRes := reduce (fun acc yi i =>
                   let predicted := slope * of_nat i + intercept in
                   acc + Math_pow (yi - predicted) 2) data 0 in
    let ssTot := reduce (fun acc yi _ => acc + Math_pow (yi - meanY) 2) data 0 in
    let r2 := if Qeq_bool ssTot 0 then 1 else 1 - ssRes / ssTot in
    {| slope := slope; intercept := intercept; lin_r2 := r2 |}.

(** ** mlAlgorithms: polynomial regression *)

Record FitResult := {
  coefficients : list Q;
  r2 : Q
}.

Definition gaussianElimination (A : list (list Q)) (b : list Q)
  : outcome (list Q) :=
  let n := length A in
  let solution := zeros n in
  if (n =? 2)%nat then
    let det := at2 A 0 0 * at2 A 1 1 - at2 A 0 1 * at2 A 1 0 in
    if ltb (Qabs det) (1 # 10000000000) then Returns [0; 0]
    else
      let solution :=
        set solution 0 ((at_ b 0 * at2 A 1 1 - at_ b 1 * at2 A 0 1) / det) in
      let solution :=
        set solution 1 ((at2 A 0 0 * at_ b 1 - at2 A 1 0 * at_ b 0) / det) in
      Returns solution
  else
    match A with
    | [] => Throws                      (* A[0][0] with A[0] undefined *)
    | A0 :: _ =>
      let solution := set solution 0 (at_ b 0 / or_else (get A0 0) 1) in
      let solution :=
        set solution 1
            (if (1 <? n)%nat
             then at_ b 1 / or_else (get (nth 1 A []) 1) 1
             else 0) in
      Returns solution
    end.

(** The two products built by [solveNormalEquations]. *)
Definition XTX (X : list (list Q)) (p : nat) : list (list Q) :=
  let n := length X in
  map (fun i =>
         map (fun j =>
                fold_left (fun acc k => acc + at2 X k i * at2 X k j) (seq 0 n) 0)
             (seq 0 p))
      (seq 0 p).

Definition XTy (X : list (list Q)) (y : list Q) (p : nat) : list Q :=
  let n := length X in
  map (fun i => fold_left (fun acc k => acc + at2 X k i * at_ y k) (seq 0 n) 0)
      (seq 0 p).

Definition solveNormalEquations (X : list (list Q)) (y : list Q)
  : outcome (list Q) :=
  match X with
  | [] => Throws                        (* X[0].length with X[0] undefined *)
  | X0 :: _ =>
    let p := length X0 in
    gaussianElimination (XTX X p) (XTy X y p)
  end.

(** The design matrix: row [i], column [j] holds [i^j]. *)
Definition designMatrix (n degree : nat) : list (list Q) :=
  map (fun i => map (fun j => Math_pow (of_nat i) j) (seq 0 (S degree)))
      (seq 0 n).

(** [coefficients.reduce((sum, coef, pow) => sum + coef * Math.pow(t, pow), 0)]. *)
Definition polyEval (coefs : list Q) (t : Q) : Q :=
  reduce (fun s coef pow => s + coef * Math_pow t pow) coefs 0.

Definition polynomialRegression (data : list Q) (degree : nat)
  : outcome FitResult :=
  let n := length data in
  if (n <? degree + 1)%nat then Returns {| coefficients := [0]; r2 := 0 |}
  else
    let X := designMatrix n degree in
    bind (solveNormalEquations X data) (fun coefs =>
      let meanY := sum data / of_nat n in
      let '(ssRes, ssTot) :=
        fold_left (fun '(ssRes, ssTot) i =>
                     let predicted := polyEval coefs (of_nat i) in
                     (ssRes + Math_pow (at_ data i - predicted) 2,
                      ssTot + Math_pow (at_ data i - meanY) 2))
                  (seq 0 n) (0, 0) in
      let r2 := if Qeq_bool ssTot 0 then 1 else 1 - ssRes / ssTot in
      Returns {| coefficients := coefs; r2 := r2 |}).

(** ** mlAlgorithms: smoothing and seasonality *)

Definition movingAverage (data : list Q) (window : Z) : list Q :=
  map (fun i =>
         let start := Z.max 0 (Z.of_nat i - floor_half window) in
         let end_ := Z.min (Z.of_nat (length data))
                           (Z.of_nat i + ceil_half window) in
         let slice := slice data start end_ in
         sum slice / of_nat (length slice))
      (seq 0 (length data)).

Record Seasonality := {
  seasonal : list Q;
  trend : list Q;
  hasSeasonality : bool
}.

(** [a[i]++] on an array of counters. *)
Definition bump (a : list nat) (i : nat) : list nat :=
  firstn i a ++ S (nth i a 0%nat) :: skipn (S i) a.

Definition detectSeasonality (data : list Q) : Seasonality :=
  let n := length data in
  if (n <? 12)%nat then
    {| seasonal := []; trend := []; hasSeasonality := false |}
  else
    let trend := movingAverage data 4 in
    let detrended := map (fun i => at_ data i - at_ trend i) (seq 0 n) in
    let '(seasonalPattern, seasonalCounts) :=
      fold_left (fun '(pat, cnt) i =>
                   let monthIndex := (i mod 12)%nat in
                   (set pat monthIndex (at_ pat monthIndex + at_ detrended i),
                    bump cnt monthIndex))
                (seq 0 n) (zeros 12, repeat 0%nat 12) in
    let seasonalPattern :=
      fold_left (fun pat i =>
                   if (0 <? nth i seasonalCounts 0)%nat
                   then set pat i (at_ pat i / of_nat (nth i seasonalCounts 0%nat))
                   else pat)
                (seq 0 12) seasonalPattern in
    let seasonal :=
      fold_left (fun s i => set s i (at_ seasonalPattern (i mod 12)))
                (seq 0 n) (zeros n) in
    let seasonalVariance :=
      reduce (fun s v _ => s + v * v) seasonalPattern 0 / 12 in
    {| seasonal := seasonal; trend := trend;
       hasSeasonality := ltb (1 # 10) seasonalVariance |}.

(** ** mlAlgorithms: the enhanced forecast *)

Inductive TrendDirection := up | down | stable.

Record MLModelResult := {
  predictions : list MetricData;
  confidence : Q;
  trendDirection : TrendDirection;
  seasonalPattern : bool;
  accuracy : Q
}.

(** What the engine reads from outside: [Math.sin], the stream of
    [Math.random()] draws and the months reported by successive
    [new Date().getMonth()] reads (0 = January). *)
Record Ambient := {
  Math_sin : Q -> Q;
  Math_random : nat -> Q;
  Date_getMonth : nat -> nat
}.

(** How many draws and clock reads have been made so far. *)
Record Calls := {
  rand_calls : nat;
  date_calls : nat
}.

Definition monthNames : list string :=
  ["Jan"; "Feb"; "Mar"; "Apr"; "May"; "Jun";
   "Jul"; "Aug"; "Sep"; "Oct"; "Nov"; "Dec"]%string.

(** *** The double product

    [x * y] on doubles is the exact product rounded to 53 significant bits,
    to nearest and ties to even.  Overflow and the subnormal range (results
    below 2^-1022 in size) are outside the model: the exponent is not
    bounded. *)

(** The integer nearest to [x], the even one of the two at a half. *)
Definition nearest_even (x : Q) : Z :=
  let f := Qfloor x in
  match Qcompare (x - inject_Z f) (1 # 2) with
  | Lt => f
  | Gt => (f + 1)%Z
  | Eq => if Z.even f then f else (f + 1)%Z
  end.

(** For [a > 0], the exponent [e] with 2^52 <= a / 2^e < 2^53. *)
Definition binade (a : Q) : Z :=
  let k := (Z.log2 (Qnum a) - Z.log2 (Zpos (Qden a)))%Z in
  if Qle_bool (2 ^ k) a then (k - 52)%Z else (k - 53)%Z.

Definition round53 (q : Q) : Q :=
  let q := Qred q in
  if Qeq_bool q 0 then 0
  else
    let a := Qabs q in
    let e := binade a in
    let m := nearest_even (a / 2 ^ e) in
    let r := inject_Z m * 2 ^ e in
    if Qle_bool 0 q then r else - r.

Definition fmul (x y : Q) : Q := round53 (x * y).

(** The literals [1.05] and [0.95]: the doubles nearest to 105/100 and
    95/100. *)
Definition c1_05 : Q := round53 (105 # 100).
Definition c0_95 : Q := round53 (95 # 100).

Definition classifyTrend (recentTrend : list Q) : TrendDirection :=
  if ltb (fmul (at_ recentTrend 0) c1_05) (at_ recentTrend 2) then up
  else if ltb (at_ recentTrend 2) (fmul (at_ recentTrend 0) c0_95) then down
  else stable.

Section Forecast.

Variable env : Ambient.

(** One turn of the prediction loop, for step [i]. *)
Definition predictStep (values : list Q) (polyResult : FitResult)
           (season : Seasonality) (i : nat) (c : Calls)
  : MetricData * Calls :=
  let n := length values in
  let futureIndex := (n + i - 1)%nat in
  let predictedValue := polyEval (coefficients polyResult) (of_nat futureIndex) in
  let predictedValue :=
    if hasSeasonality season && (0 <? length (seasonal season))%nat then
      let seasonalIndex := (futureIndex mod 12)%nat in
      predictedValue + or_else (get (seasonal season) seasonalIndex) 0
    else predictedValue in
  let confidence := Qmin (r2 polyResult) (95 # 100) in
  let uncertainty := (1 - confidence) * predictedValue * (15 # 100) in
  let realDataMultiplier :=
    (12 # 10) + Math_sin env (of_nat futureIndex) * (1 # 10) in
  let predictedValue := predictedValue * realDataMultiplier in
  let predictedValue :=
    predictedValue + (Math_random env (rand_calls c) - (1 # 2)) * uncertainty in
  let predictedValue :=
    Qmax predictedValue (at_ values (length values - 1) * (2 # 10)) in
  let currentMonth := Date_getMonth env (date_calls c) in
  let futureMonthIndex := ((currentMonth + i) mod 12)%nat in
  ({| month := nth futureMonthIndex monthNames EmptyString;
      value := predictedValue;
      predicted := Some true |},
   {| rand_calls := S (rand_calls c); date_calls := S (date_calls c) |}).

(** [for (let i = ...; i <= months; i++)] with [left] turns still to run. *)
Fixpoint predictLoop (values : list Q) (polyResult : FitResult)
         (season : Seasonality) (left i : nat)
         (predictions : list MetricData) (c : Calls)
  : list MetricData * Calls :=
  match left with
  | O => (predictions, c)
  | S left' =>
    let '(p, c') := predictStep values polyResult season i c in
    predictLoop values polyResult season left' (S i) (predictions ++ [p]) c'
  end.

Definition generateEnhancedPredictions (historicalData : list MetricData)
           (months : Z) (c : Calls) : outcome (MLModelResult * Calls) :=
  let values := map value historicalData in
  let n := length values in
  if (n <? 3)%nat then
    Returns ({| predictions := []; confidence := 0; trendDirection := stable;
                seasonalPattern := false; accuracy := 0 |}, c)
  else
    bind (polynomialRegression values (Nat.min 3 (n - 1))) (fun polyResult =>
      let season := detectSeasonality values in
      let recentTrend := slice_from values (-3) in
      let trendDirection := classifyTrend recentTrend in
      let '(predictions, c') :=
        predictLoop values polyResult season (Z.to_nat months) 1 [] c in
      Returns ({| predictions := predictions;
                  confidence := r2 polyResult;
                  trendDirection := trendDirection;
                  seasonalPattern := hasSeasonality season;
                  accuracy := Qmin (r2 polyResult * 100) 95 |}, c')).

End Forecast.

(** ** mockData.ts: the linear forecast and the synthetic history *)

(** [Math.round(x)]: the nearest integer, halves going up. *)
Definition Math_round (x : Q) : Q := inject_Z (Qfloor (x + (1 # 2))).

Section LinearForecast.

Variable env : Ambient.

(** One turn of the loop of [generatePredictions], for step [i]. *)
Definition linearStep (fit : LinearFit) (lastIndex : Z) (lastValue : Q)
           (trendStrength noiseReduction : Q) (i : nat) (c : Calls)
  : MetricData * Calls :=
  let linearPrediction :=
    slope fit * inject_Z (lastIndex + Z.of_nat i) + intercept fit in
  let momentumPrediction := lastValue + slope fit * of_nat i in
  let predictedValue :=
    linearPrediction * trendStrength
    + momentumPrediction * (1 - trendStrength) in
  let variation :=
    predictedValue * (2 # 100) * noiseReduction
    * (Math_random env (rand_calls c) - (1 # 2)) in
  let predictedValue := Qmax 0 (predictedValue + variation) in
  let currentMonth := Date_getMonth env (date_calls c) in
  let futureMonthIndex := ((currentMonth + i) mod 12)%nat in
  ({| month := nth futureMonthIndex monthNames EmptyString;
      value := predictedValue;
      predicted := Some true |},
   {| rand_calls := S (rand_calls c); date_calls := S (date_calls c) |}).

Fixpoint linearLoop (fit : LinearFit) (lastIndex : Z) (lastValue : Q)
         (trendStrength noiseReduction : Q) (left i : nat)
         (predictions : list MetricData) (c : Calls)
  : list MetricData * Calls :=
  match left with
  | O => (predictions, c)
  | S left' =>
    let '(p, c') :=
      linearStep fit lastIndex lastValue trendStrength noiseReduction i c in
    linearLoop fit lastIndex lastValue trendStrength noiseReduction
               left' (S i) (predictions ++ [p]) c'
  end.

(** [generatePredictions].  On an empty history [values[lastIndex]] is
    [undefined] and every value computed from it is NaN, which the number
    model does not hold: what is said below about values is said of a
    history with at least one point. *)
Definition generatePredictions (historicalData : list MetricData)
           (months : Z) (c : Calls) : list MetricData * Calls :=
  let values := map value historicalData in
  let fit := linearRegression values in
  let lastIndex := (Z.of_nat (length historicalData) - 1)%Z in
  let lastValue := at_ values (Z.to_nat lastIndex) in
  let trendStrength := Qmin (Qmax (lin_r2 fit) (1 # 10)) (9 # 10) in
  let noiseReduction := 1 - lin_r2 fit * (3 # 10) in
  linearLoop fit lastIndex lastValue trendStrength noiseReduction
             (Z.to_nat months) 1 [] c.

(** [Math.PI], which is not rational either. *)
Variable Math_PI : Q.

(** One turn of the loop of [generateHistoricalData], for month [i]. *)
Definition historyStep (trendFactor volatility : Q) (i : nat)
           (currentValue : Q) (c : Calls) : MetricData * Q * Calls :=
  let seasonalFactor :=
    1 + (1 # 10) * Math_sin env (of_nat i / 12 * 2 * Math_PI) in
  let randomFactor :=
    1 + (Math_random env (rand_calls c) - (1 # 2)) * volatility in
  let currentValue := currentValue * trendFactor * seasonalFactor * randomFactor in
  ({| month := nth i monthNames EmptyString;
      value := Math_round currentValue;
      predicted := None |},
   currentValue,
   {| rand_calls := S (rand_calls c); date_calls := date_calls c |}).

Fixpoint historyLoop (trendFactor volatility : Q) (left i : nat)
         (currentValue : Q) (data : list MetricData) (c : Calls)
  : list MetricData * Calls :=
  match left with
  | O => (data, c)
  | S left' =>
    let '(d, currentValue', c') :=
      historyStep trendFactor volatility i currentValue c in
    historyLoop trendFactor volatility left' (S i) currentValue'
                (data ++ [d]) c'
  end.

Definition generateHistoricalData (baseValue : Q) (trend : TrendDirection)
           (volatility : Q) (c : Calls) : list MetricData * Calls :=
  let trendFactor :=
    match trend with
    | up => 105 # 100
    | down => 95 # 100
    | stable => 101 # 100
    end in
  historyLoop trendFactor volatility 12 0 baseValue [] c.

Record MockData := {
  salesRevenue : list MetricData;
  customerAcquisitionCost : list MetricData;
  conversionRate : list MetricData
}.

(** The module-level constant [mockData], built when the module loads. *)
Definition mockData (c : Calls) : MockData * Calls :=
  let '(sales, c1) := generateHistoricalData 850000 up (15 # 100) c in
  let '(cac, c2) := generateHistoricalData 125 down (12 # 100) c1 in
  let '(conv, c3) := generateHistoricalData (32 # 10) up (8 # 100) c2 in
  ({| salesRevenue := sales;
      customerAcquisitionCost := cac;
      conversionRate :=
        map (fun d => {| month := month d;
                         value := Qmax (1 # 2) (Qmin 8 (value d));
                         predicted := predicted d |}) conv |},
   c3).

End LinearForecast.

(** ** Specification-side notions *)

(** The mean of the entries of [data] at the indices [lo, hi). *)
Definition windowMean (data : list Q) (lo hi : nat) : Q :=
  fold_right Qplus 0 (map (fun j => nth j data 0) (seq lo (hi - lo)))
  / inject_Z (Z.of_nat hi - Z.of_nat lo).

(** The result of a forecast that has too little to work on. *)
Definition zeroResult : MLModelResult :=
  {| predictions := []; confidence := 0; trendDirection := stable;
     seasonalPattern := false; accuracy := 0 |}.

(** The observed series carried by a list of values, and sample ambients. *)
Definition observe (l : list Q) : list MetricData :=
  map (fun v => {| month := "Jan"; value := v; predicted := None |}) l.

Definition calmAmbient : Ambient :=
  {| Math_sin := fun _ => 0;
     Math_random := fun _ => 1 # 2;
     Date_getMonth := fun _ => 10%nat |}.

Definition noCalls : Calls := {| rand_calls := 0; date_calls := 0 |}.

(** The sum of [g 0], ..., [g (n-1)]. *)
Fixpoint bigsum (g : nat -> Q) (n : nat) : Q :=
  match n with
  | O => 0
  | S n' => bigsum g n' + g n'
  end.

(** The series a, a + b, a + 2b, ... of [n] points. *)
Definition linearSeries (a b : Q) (n : nat) : list Q :=
  map (fun i => a + b * of_nat i) (seq 0 n).

(** The intermediate arrays of [detectSeasonality], by name: the sums
    and counts per position in the year, and the averaged pattern. *)
Definition seasonalSums (detrended : list Q) (n : nat) : list Q * list nat :=
  fold_left (fun '(pat, cnt) i =>
               let monthIndex := (i mod 12)%nat in
               (set pat monthIndex (at_ pat monthIndex + at_ detrended i),
                bump cnt monthIndex))
            (seq 0 n) (zeros 12, repeat 0%nat 12).

Definition seasonalAverages (sums : list Q) (counts : list nat) : list Q :=
  fold_left (fun pat i =>
               if (0 <? nth i counts 0)%nat
               then set pat i (at_ pat i / of_nat (nth i counts 0%nat))
               else pat)
            (seq 0 12) sums.

Definition detrend (data : list Q) : list Q :=
  map (fun i => at_ data i - at_ (movingAverage data 4) i)
      (seq 0 (length data)).

(** The sum of [g i] over the indices i < n that fall on position [m]
    of the year, and the number of such indices. *)
Definition residueSum (g : nat -> Q) (n m : nat) : Q :=
  bigsum (fun i => if (i mod 12 =? m)%nat then g i else 0) n.

Definition residueCount (n m : nat) : nat :=
  length (filter (fun i => (i mod 12 =? m)%nat) (seq 0 n)).

(** * Properties *)

(** ** Arrays *)

Lemma zeros_length n : length (zeros n) = n.
Proof. apply repeat_length. Qed.

Lemma set_length a i v :
  length (set a i v) = Nat.max (length a) (S i).
Proof.
  unfold set. destruct (Nat.ltb_spec i (length a)) as [Hlt | Hge].
  - rewrite length_app. cbn [length]. rewrite length_firstn, length_skipn. lia.
  - rewrite !length_app, repeat_length. cbn [length]. lia.
Qed.

Lemma set_head v x a : set (x :: a) 0 v = v :: a.
Proof. reflexivity. Qed.

Lemma set_second v x y a : set (x :: y :: a) 1 v = x :: v :: a.
Proof. reflexivity. Qed.

Lemma nth_map_seq {A} (f : nat -> A) (d : A) n i :
  (i < n)%nat -> nth i (map f (seq 0 n)) d = f i.
Proof.
  intros Hi. rewrite nth_indep with (d' := f 0%nat) by (rewrite length_map, length_seq; exact Hi).
  rewrite map_nth, seq_nth by exact Hi. reflexivity.
Qed.

(** ** The solver *)

Lemma XTX_length X p : length (XTX X p) = p.
Proof. unfold XTX. rewrite length_map, length_seq. reflexivity. Qed.

Lemma XTy_length X y p : length (XTy X y p) = p.
Proof. unfold XTy. rewrite length_map, length_seq. reflexivity. Qed.

Lemma designMatrix_length n degree : length (designMatrix n degree) = n.
Proof. unfold designMatrix. rewrite length_map, length_seq. reflexivity. Qed.

Lemma designMatrix_row0 n degree :
  length (nth 0 (designMatrix (S n) degree) []) = S degree.
Proof.
  unfold designMatrix. cbn [seq map nth length].
  rewrite length_map, length_seq. reflexivity.
Qed.

(** On three rows or more the solver writes slots 0 and 1 of a zero vector
    and nothing else. *)
Lemma gaussianElimination_fallback A b :
  (3 <= length A)%nat ->
  gaussianElimination A b =
  Returns (at_ b 0 / or_else (get (nth 0 A []) 0) 1
           :: at_ b 1 / or_else (get (nth 1 A []) 1) 1
           :: zeros (length A - 2)).
Proof.
  intros Hn.
  destruct A as [| A0 [| A1 [| A2 A']]]; cbn [length] in Hn; try lia.
  unfold gaussianElimination. cbn [length].
  replace (S (S (S (length A'))) =? 2)%nat with false by reflexivity.
  replace (1 <? S (S (S (length A'))))%nat with true by reflexivity.
  reflexivity.
Qed.

(** On a single row the assignment to slot 1 lengthens the vector. *)
Lemma gaussianElimination_single A0 b :
  gaussianElimination [A0] b =
  Returns [at_ b 0 / or_else (get A0 0) 1; 0].
Proof. reflexivity. Qed.

Lemma gaussianElimination_pair A0 A1 b :
  exists x y, gaussianElimination [A0; A1] b = Returns [x; y].
Proof.
  unfold gaussianElimination. cbn [length Nat.eqb].
  destruct (ltb _ _); eexists; eexists; reflexivity.
Qed.

Lemma solveNormalEquations_design n degree y :
  solveNormalEquations (designMatrix (S n) degree) y =
  gaussianElimination (XTX (designMatrix (S n) degree) (S degree))
                      (XTy (designMatrix (S n) degree) y (S degree)).
Proof.
  unfold solveNormalEquations.
  pose proof (designMatrix_row0 n degree) as Hrow.
  destruct (designMatrix (S n) degree) as [| X0 X'] eqn:HX.
  - pose proof (designMatrix_length (S n) degree) as Hlen.
    rewrite HX in Hlen. discriminate Hlen.
  - cbn [nth] in Hrow. rewrite Hrow. reflexivity.
Qed.

(** Every system handed to the solver by the regression is solved without
    raising. *)
Lemma solveNormalEquations_returns n degree y :
  exists coefs, solveNormalEquations (designMatrix (S n) degree) y = Returns coefs.
Proof.
  rewrite solveNormalEquations_design.
  pose proof (XTX_length (designMatrix (S n) degree) (S degree)) as HA.
  destruct (XTX (designMatrix (S n) degree) (S degree)) as [| A0 [| A1 [| A2 A']]] eqn:E;
    cbn [length] in HA.
  - discriminate HA.
  - eexists. apply gaussianElimination_single.
  - destruct (gaussianElimination_pair A0 A1 (XTy (designMatrix (S n) degree) y (S degree)))
      as (x & y' & H). eexists. exact H.
  - eexists. apply gaussianElimination_fallback. cbn [length]. lia.
Qed.

(** The regression keeps the solver's coefficients as they are. *)
Lemma polynomialRegression_fit data degree coefs :
  (degree + 1 <= length data)%nat ->
  solveNormalEquations (designMatrix (length data) degree) data = Returns coefs ->
  exists r, polynomialRegression data degree
            = Returns {| coefficients := coefs; r2 := r |}.
Proof.
  intros Hn Hsolve. unfold polynomialRegression.
  destruct (Nat.ltb_spec (length data) (degree + 1)) as [Hlt | _]; [lia |].
  rewrite Hsolve. cbn [bind].
  destruct (fold_left _ _ _) as [ssRes ssTot].
  eexists. reflexivity.
Qed.

(** [polynomialRegression] never raises. *)
Lemma polynomialRegression_returns data degree :
  exists fit, polynomialRegression data degree = Returns fit.
Proof.
  destruct (Nat.ltb_spec (length data) (degree + 1)) as [Hlt | Hge].
  - exists {| coefficients := [0]; r2 := 0 |}. unfold polynomialRegression.
    apply Nat.ltb_lt in Hlt. rewrite Hlt. reflexivity.
  - destruct (length data) as [| n] eqn:Hlen; [lia |].
    destruct (solveNormalEquations_returns n degree data) as [coefs Hc].
    rewrite <- Hlen in Hc.
    destruct (polynomialRegression_fit data degree coefs) as [r Hr]; [lia | exact Hc |].
    eexists. exact Hr.
Qed.

(** For degree 2 and above the coefficients are the two diagonal quotients
    followed by zeros. *)
Lemma polynomialRegression_high data degree :
  (2 <= degree)%nat -> (degree + 1 <= length data)%nat ->
  let X := designMatrix (length data) degree in
  let A := XTX X (S degree) in
  let b := XTy X data (S degree) in
  exists r, polynomialRegression data degree
            = Returns {| coefficients :=
                           at_ b 0 / or_else (get (nth 0 A []) 0) 1
                           :: at_ b 1 / or_else (get (nth 1 A []) 1) 1
                           :: zeros (degree - 1);
                         r2 := r |}.
Proof.
  intros Hd Hn X A b.
  apply polynomialRegression_fit; [exact Hn |].
  destruct (length data) as [| n] eqn:Hlen; [lia |].
  subst X A b. rewrite solveNormalEquations_design.
  rewrite gaussianElimination_fallback by (rewrite XTX_length; lia).
  rewrite XTX_length. replace (S degree - 2)%nat with (degree - 1)%nat by lia.
  reflexivity.
Qed.

(** When the fit is attempted with degree 1 or more, the coefficient
    vector has one entry per power. *)
Lemma polynomialRegression_length data degree :
  (1 <= degree)%nat -> (degree + 1 <= length data)%nat ->
  exists fit, polynomialRegression data degree = Returns fit
              /\ length (coefficients fit) = (degree + 1)%nat.
Proof.
  intros Hd Hn.
  destruct (Nat.eq_dec degree 1) as [-> | Hne].
  - destruct (length data) as [| n] eqn:Hlen; [lia |].
    pose proof (solveNormalEquations_design n 1 data) as Hs.
    pose proof (XTX_length (designMatrix (S n) 1) 2) as HA.
    destruct (XTX (designMatrix (S n) 1) 2) as [| A0 [| A1 [| A2 A']]];
      try discriminate HA.
    destruct (gaussianElimination_pair A0 A1 (XTy (designMatrix (S n) 1) data 2))
      as (x & y & Hxy).
    rewrite Hxy, <- Hlen in Hs.
    destruct (polynomialRegression_fit data 1 [x; y]) as [r Hr]; [lia | exact Hs |].
    eexists. split; [exact Hr | reflexivity].
  - destruct (polynomialRegression_high data degree) as [r Hr]; [lia | exact Hn |].
    eexists. split; [exact Hr |].
    cbn [coefficients length]. rewrite zeros_length. lia.
Qed.

(** ** Claims about the trend fit *)

(** C2, as stated, fails: on the series 0, 0, 1 fitted with degree 2 the
    coefficient of the square is 0, whereas the quotient of entry 2 of
    X^T y by the diagonal entry 2 of X^T X is 4/17. *)
Lemma diagonal_fallback_skips_square :
  exists fit,
    polynomialRegression [0; 0; 1] 2 = Returns fit
    /\ at_ (coefficients fit) 2 == 0
    /\ at_ (XTy (designMatrix 3 2) [0; 0; 1] 3) 2
       / or_else (get (nth 2 (XTX (designMatrix 3 2) 3) []) 2) 1 == 4 # 17
    /\ ~ at_ (coefficients fit) 2
         == at_ (XTy (designMatrix 3 2) [0; 0; 1] 3) 2
            / or_else (get (nth 2 (XTX (designMatrix 3 2) 3) []) 2) 1.
Proof.
  eexists. split; [vm_compute; reflexivity |].
  repeat split; try (vm_compute; reflexivity).
  vm_compute. discriminate.
Qed.

(** C2, amended: for every degree above 1 and every series of at least
    degree+1 points, the fit returns degree+1 coefficients; coefficients 0
    and 1 are entry k of X^T y divided by the diagonal entry k of X^T X,
    with 1 as the divisor when that entry is 0; every coefficient from
    index 2 on is 0. *)
Theorem diagonal_fallback_first_two data degree :
  (1 < degree)%nat -> (degree + 1 <= length data)%nat ->
  exists fit,
    polynomialRegression data degree = Returns fit
    /\ length (coefficients fit) = (degree + 1)%nat
    /\ (forall k, (k < 2)%nat ->
          at_ (coefficients fit) k
          = at_ (XTy (designMatrix (length data) degree) data (S degree)) k
            / or_else (get (nth k (XTX (designMatrix (length data) degree)
                                       (S degree)) []) k) 1)
    /\ (forall k, (2 <= k)%nat -> at_ (coefficients fit) k = 0).
Proof.
  intros Hd Hn.
  destruct (polynomialRegression_high data degree) as [r Hr]; [lia | exact Hn |].
  eexists. split; [exact Hr |]. cbn [coefficients]. repeat split.
  - cbn [length]. rewrite zeros_length. lia.
  - intros k Hk. destruct k as [| [| k]]; [reflexivity | reflexivity | lia].
  - intros k Hk. destruct k as [| [| k]]; [lia | lia |].
    unfold at_, zeros. cbn [nth]. apply nth_repeat.
Qed.

Lemma diagonal_fallback_first_two_witness :
  exists fit,
    polynomialRegression [0; 0; 1] 2 = Returns fit
    /\ length (coefficients fit) = 3%nat
    /\ (forall k, (k < 2)%nat ->
          at_ (coefficients fit) k
          = at_ (XTy (designMatrix 3 2) [0; 0; 1] 3) k
            / or_else (get (nth k (XTX (designMatrix 3 2) 3) []) k) 1)
    /\ (forall k, (2 <= k)%nat -> at_ (coefficients fit) k = 0).
Proof.
  apply (diagonal_fallback_first_two [0; 0; 1] 2); cbn [length]; lia.
Defined.

(** C3: the code breaks the invariant at degree 0.  On the one-point
    series 5 the fit is attempted and returns the two coefficients 5, 0,
    not the single coefficient that degree+1 = 1 asks for. *)
Theorem constant_fit_returns_two_coefficients :
  polynomialRegression [5] 0 = Returns {| coefficients := [5; 0]; r2 := 1 |}
  /\ length [5; 0] <> (0 + 1)%nat.
Proof.
  split; [vm_compute; reflexivity | cbn [length]; lia].
Qed.

(** C10: for a series of four points or more, forecast fits degree
    min(3, n-1); the returned coefficients are 0 from index 2 on, and the
    polynomial evaluated at any time t equals c0 + c1 * t. *)
Theorem forecast_trend_is_affine (values : list Q) :
  (4 <= length values)%nat ->
  exists fit,
    polynomialRegression values (Nat.min 3 (length values - 1)) = Returns fit
    /\ (forall k, (2 <= k)%nat -> at_ (coefficients fit) k = 0)
    /\ (forall t, polyEval (coefficients fit) t
                  == at_ (coefficients fit) 0 + at_ (coefficients fit) 1 * t).
Proof.
  intros Hn.
  replace (Nat.min 3 (length values - 1)) with 3%nat by lia.
  destruct (polynomialRegression_high values 3) as [r Hr]; [lia | lia |].
  eexists. split; [exact Hr |]. cbn [coefficients]. split.
  - intros k Hk. destruct k as [| [| [| [| k]]]]; try lia; try reflexivity.
    unfold at_. cbn [nth zeros repeat Nat.sub]. destruct k; reflexivity.
  - intros t. unfold polyEval, reduce, at_.
    cbn [zeros repeat Nat.sub reduce_from nth].
    unfold Math_pow. cbn [Z.of_nat Pos.of_succ_nat Pos.succ Qpower Qpower_positive pow_pos Pos.iter_op].
    ring.
Qed.

Lemma forecast_trend_is_affine_witness :
  exists fit,
    polynomialRegression [1; 2; 4; 8; 16] (Nat.min 3 (5 - 1)) = Returns fit
    /\ (forall k, (2 <= k)%nat -> at_ (coefficients fit) k = 0)
    /\ (forall t, polyEval (coefficients fit) t
                  == at_ (coefficients fit) 0 + at_ (coefficients fit) 1 * t).
Proof.
  apply (forecast_trend_is_affine [1; 2; 4; 8; 16]). cbn [length]. lia.
Defined.

(** C7, as stated, fails for the linear convenience fit: on the one-point
    series 5 it returns intercept 5, not 0. *)
Lemma linear_fallback_keeps_the_point :
  intercept (linearRegression [5]) == 5
  /\ ~ (slope (linearRegression [5]) == 0
        /\ intercept (linearRegression [5]) == 0
        /\ lin_r2 (linearRegression [5]) == 0).
Proof.
  split; [vm_compute; reflexivity |].
  intros (_ & H & _). vm_compute in H. discriminate H.
Qed.

(** C7, amended: for every series shorter than degree+1 the polynomial fit
    returns coefficients [0] and goodness of fit 0 without raising; the
    linear convenience fit on a series shorter than 2 returns slope 0,
    goodness of fit 0 and, as intercept, the only point of the series
    (0 when the series is empty). *)
Theorem degenerate_fallback data degree :
  (length data < degree + 1)%nat ->
  polynomialRegression data degree = Returns {| coefficients := [0]; r2 := 0 |}
  /\ (degree = 1%nat ->
      slope (linearRegression data) = 0
      /\ intercept (linearRegression data) == hd 0 data
      /\ lin_r2 (linearRegression data) = 0).
Proof.
  intros Hlt. split.
  - unfold polynomialRegression. apply Nat.ltb_lt in Hlt. rewrite Hlt. reflexivity.
  - intros ->. unfold linearRegression.
    destruct (Nat.ltb_spec (length data) 2) as [_ | Hge]; [| lia].
    cbn [slope intercept lin_r2]. repeat split.
    destruct data as [| y data']; cbn [get nth_error or_else hd]; [reflexivity |].
    destruct (Qeq_bool y 0) eqn:Hy; [| reflexivity].
    apply Qeq_bool_eq in Hy. symmetry. exact Hy.
Qed.

Lemma degenerate_fallback_witness :
  polynomialRegression [5] 1 = Returns {| coefficients := [0]; r2 := 0 |}
  /\ (1%nat = 1%nat ->
      slope (linearRegression [5]) = 0
      /\ intercept (linearRegression [5]) == hd 0 [5]
      /\ lin_r2 (linearRegression [5]) = 0).
Proof.
  apply (degenerate_fallback [5] 1). cbn [length]. lia.
Defined.

(** C8: on the series 1, 3, 5, 7, 9 the linear fit has slope 2, intercept
    1 and goodness of fit 1, and the degree-1 polynomial fit returns the
    coefficients 1, 2 with goodness of fit 1. *)
Theorem linear_series_recovered :
  slope (linearRegression [1; 3; 5; 7; 9]) == 2
  /\ intercept (linearRegression [1; 3; 5; 7; 9]) == 1
  /\ lin_r2 (linearRegression [1; 3; 5; 7; 9]) == 1
  /\ exists fit,
       polynomialRegression [1; 3; 5; 7; 9] 1 = Returns fit
       /\ length (coefficients fit) = 2%nat
       /\ at_ (coefficients fit) 0 == 1
       /\ at_ (coefficients fit) 1 == 2
       /\ r2 fit == 1.
Proof.
  repeat split; try (vm_compute; reflexivity).
  eexists. split; [vm_compute; reflexivity |].
  repeat split; vm_compute; reflexivity.
Qed.

(** ** Claims about the moving average *)

Lemma reduce_from_plus (l : list Q) idx acc :
  reduce_from (fun s v (_ : nat) => s + v) l idx acc
  == acc + fold_right Qplus 0 l.
Proof.
  revert idx acc. induction l as [| x l IH]; intros idx acc; cbn [reduce_from fold_right].
  - ring.
  - rewrite IH. ring.
Qed.

Lemma sum_fold_right l : sum l == fold_right Qplus 0 l.
Proof. unfold sum, reduce. rewrite reduce_from_plus. ring. Qed.

Lemma skipn_nth_cons (l : list Q) s :
  (s < length l)%nat -> skipn s l = nth s l 0 :: skipn (S s) l.
Proof.
  revert s. induction l as [| x l IH]; intros s Hs; cbn [length] in Hs; [lia |].
  destruct s as [| s]; [reflexivity |].
  cbn [skipn nth]. rewrite IH by lia. reflexivity.
Qed.

Lemma firstn_skipn_seq (l : list Q) m s :
  (s + m <= length l)%nat ->
  firstn m (skipn s l) = map (fun j => nth j l 0) (seq s m).
Proof.
  revert s. induction m as [| m IH]; intros s Hs; [reflexivity |].
  rewrite skipn_nth_cons by lia. cbn [firstn seq map].
  rewrite IH by lia. reflexivity.
Qed.

Lemma rel_index_inside len k :
  (0 <= k <= Z.of_nat len)%Z -> rel_index len k = Z.to_nat k.
Proof.
  intros Hk. unfold rel_index.
  destruct (Z.ltb_spec k 0) as [Hneg | _]; [lia |].
  rewrite Z.min_l by lia. reflexivity.
Qed.

Lemma floor_half_spec w f : (2 * f <= w < 2 * f + 2)%Z -> floor_half w = f.
Proof. intros H. unfold floor_half. Z.div_mod_to_equations. lia. Qed.

Lemma ceil_half_spec w c : (2 * c - 2 < w <= 2 * c)%Z -> ceil_half w = c.
Proof. intros H. unfold ceil_half. Z.div_mod_to_equations. lia. Qed.

(** C9: for every series and every window of 1 or more, movingAverage
    returns as many entries as it is given, and entry i is the mean of the
    entries at the indices from max(0, i - floor(window/2)) up to, and not
    including, min(length, i + ceil(window/2)); that range always holds i. *)
Theorem movingAverage_clipped_window_mean (data : list Q) (window : Z) :
  data <> [] -> (1 <= window)%Z ->
  length (movingAverage data window) = length data
  /\ forall (i : nat) (f c : Z),
       (i < length data)%nat ->
       (2 * f <= window < 2 * f + 2)%Z ->
       (2 * c - 2 < window <= 2 * c)%Z ->
       let lo := Z.to_nat (Z.max 0 (Z.of_nat i - f)) in
       let hi := Z.to_nat (Z.min (Z.of_nat (length data)) (Z.of_nat i + c)) in
       (lo <= i < hi)%nat /\ (hi <= length data)%nat
       /\ nth i (movingAverage data window) 0 == windowMean data lo hi.
Proof.
  intros _ Hw. split.
  - unfold movingAverage. rewrite length_map, length_seq. reflexivity.
  - intros i f c Hi Hf Hc lo hi.
    assert (Hlo : (lo <= i)%nat) by (subst lo; lia).
    assert (Hhi : (i < hi)%nat) by (subst hi; lia).
    assert (Hlen : (hi <= length data)%nat) by (subst hi; lia).
    split; [lia |]. split; [exact Hlen |].
    unfold movingAverage. rewrite nth_map_seq by exact Hi.
    rewrite (floor_half_spec window f Hf), (ceil_half_spec window c Hc).
    unfold slice.
    rewrite !rel_index_inside by lia.
    fold lo. fold hi.
    rewrite firstn_skipn_seq by lia.
    rewrite length_map, length_seq.
    unfold windowMean, of_nat.
    rewrite Nat2Z.inj_sub by lia.
    rewrite sum_fold_right. reflexivity.
Qed.

Lemma movingAverage_clipped_window_mean_witness :
  length (movingAverage [1; 2; 3; 4; 5] 4) = 5%nat
  /\ nth 0 (movingAverage [1; 2; 3; 4; 5] 4) 0 == windowMean [1; 2; 3; 4; 5] 0 2.
Proof.
  destruct (movingAverage_clipped_window_mean [1; 2; 3; 4; 5] 4) as [Hlen Hmean];
    [discriminate | lia |].
  split; [exact Hlen |].
  apply (Hmean 0%nat 2%Z 2%Z); cbn [length]; lia.
Defined.

(** ** The forecast *)

Lemma ltb_lt x y : ltb x y = true <-> x < y.
Proof.
  unfold ltb. rewrite negb_true_iff. split.
  - intros H. apply Qnot_le_lt. intros Hle.
    apply Qle_bool_iff in Hle. congruence.
  - intros H. destruct (Qle_bool y x) eqn:E; [| reflexivity].
    apply Qle_bool_iff in E. exfalso. exact (Qlt_not_le _ _ H E).
Qed.

Lemma ltb_nlt x y : ltb x y = false <-> ~ x < y.
Proof.
  rewrite <- ltb_lt. destruct (ltb x y); split; congruence.
Qed.

Lemma nth_pred_last (l : list Q) d :
  l <> [] -> nth (length l - 1) l d = last l d.
Proof.
  induction l as [| x l IH]; intros Hne; [congruence |].
  destruct l as [| y l]; [reflexivity |].
  specialize (IH ltac:(discriminate)).
  change (last (x :: y :: l) d) with (last (y :: l) d).
  rewrite <- IH. cbn [length Nat.sub nth]. rewrite Nat.sub_0_r. reflexivity.
Qed.

(** The three most recent values. *)
Lemma recent_three (values : list Q) :
  (3 <= length values)%nat ->
  slice_from values (-3)
  = [nth (length values - 3) values 0;
     nth (length values - 2) values 0;
     nth (length values - 1) values 0].
Proof.
  intros Hn. unfold slice_from, rel_index.
  replace (-3 <? 0)%Z with true by reflexivity.
  replace (Z.to_nat (Z.max (Z.of_nat (length values) + -3) 0))
    with (length values - 3)%nat by lia.
  rewrite skipn_nth_cons by lia.
  replace (S (length values - 3)) with (length values - 2)%nat by lia.
  rewrite skipn_nth_cons by lia.
  replace (S (length values - 2)) with (length values - 1)%nat by lia.
  rewrite skipn_nth_cons by lia.
  rewrite skipn_all2 by lia. reflexivity.
Qed.

Section ForecastFacts.

Variable env : Ambient.
Variables (values : list Q) (polyResult : FitResult) (season : Seasonality).

Let step := predictStep env values polyResult season.
Let loop := predictLoop env values polyResult season.

Lemma predictLoop_length left i acc c :
  length (fst (loop left i acc c)) = (length acc + left)%nat.
Proof.
  subst loop. revert i acc c.
  induction left as [| left IH]; intros i acc c; cbn [predictLoop].
  - cbn [fst]. lia.
  - destruct (predictStep env values polyResult season i c) as [p c'].
    rewrite IH, length_app. cbn [length]. lia.
Qed.

Lemma predictLoop_Forall (P : MetricData -> Prop) left i acc c :
  (forall j d, P (fst (step j d))) ->
  Forall P acc -> Forall P (fst (loop left i acc c)).
Proof.
  subst step loop. intros Hstep. revert i acc c.
  induction left as [| left IH]; intros i acc c Hacc; cbn [predictLoop].
  - exact Hacc.
  - specialize (Hstep i c).
    destruct (predictStep env values polyResult season i c) as [p c'].
    apply IH. apply Forall_app. split; [exact Hacc |].
    constructor; [exact Hstep | constructor].
Qed.

Lemma predictStep_predicted i c : predicted (fst (step i c)) = Some true.
Proof. reflexivity. Qed.

Lemma predictStep_floor i c :
  (2 # 10) * at_ values (length values - 1) <= value (fst (step i c)).
Proof.
  subst step. unfold predictStep. cbn [fst value].
  rewrite Qmult_comm. apply Q.le_max_r.
Qed.

End ForecastFacts.

(** With three observed points or more the forecast fits, classifies and
    runs the loop; it never raises. *)
Lemma generateEnhancedPredictions_runs env historicalData months c :
  (3 <= length historicalData)%nat ->
  let values := map value historicalData in
  exists polyResult,
    polynomialRegression values (Nat.min 3 (length values - 1)) = Returns polyResult
    /\ generateEnhancedPredictions env historicalData months c
       = Returns
           ({| predictions :=
                 fst (predictLoop env values polyResult (detectSeasonality values)
                                  (Z.to_nat months) 1 [] c);
               confidence := r2 polyResult;
               trendDirection := classifyTrend (slice_from values (-3));
               seasonalPattern := hasSeasonality (detectSeasonality values);
               accuracy := Qmin (r2 polyResult * 100) 95 |},
            snd (predictLoop env values polyResult (detectSeasonality values)
                             (Z.to_nat months) 1 [] c)).
Proof.
  intros Hn values.
  destruct (polynomialRegression_returns values (Nat.min 3 (length values - 1)))
    as [polyResult Hfit].
  exists polyResult. split; [exact Hfit |].
  unfold generateEnhancedPredictions. fold values.
  assert (Hlen : length values = length historicalData)
    by (subst values; apply length_map).
  destruct (Nat.ltb_spec (length values) 3) as [Hlt | _]; [lia |].
  rewrite Hfit. cbn [bind].
  destruct (predictLoop _ _ _ _ _ _ _ _) as [ps c']. reflexivity.
Qed.

(** Below three observed points the guard returns at once. *)
Lemma generateEnhancedPredictions_short env historicalData months c :
  (length historicalData < 3)%nat ->
  generateEnhancedPredictions env historicalData months c
  = Returns (zeroResult, c).
Proof.
  intros Hlt. unfold generateEnhancedPredictions.
  rewrite length_map. apply Nat.ltb_lt in Hlt. rewrite Hlt. reflexivity.
Qed.

(** C4: on fewer than three observed points the forecast returns the zero
    result, and does so without raising and without drawing a random
    number or reading the clock. *)
Theorem too_few_points_zero_result env historicalData months c :
  (length historicalData < 3)%nat ->
  generateEnhancedPredictions env historicalData months c
  = Returns ({| predictions := []; confidence := 0; trendDirection := stable;
                seasonalPattern := false; accuracy := 0 |}, c).
Proof.
  intros Hlt.
  exact (generateEnhancedPredictions_short env historicalData months c Hlt).
Qed.

Lemma too_few_points_zero_result_witness :
  generateEnhancedPredictions calmAmbient (observe [1; 2]) 3 noCalls
  = Returns ({| predictions := []; confidence := 0; trendDirection := stable;
                seasonalPattern := false; accuracy := 0 |}, noCalls).
Proof.
  apply (too_few_points_zero_result calmAmbient (observe [1; 2]) 3 noCalls).
  cbn [observe map length]. lia.
Defined.

(** C1, as stated, fails: on two observed points and horizon 1 the
    forecast returns no point at all. *)
Lemma short_series_yields_no_points :
  exists res c',
    generateEnhancedPredictions calmAmbient (observe [1; 2]) 1 noCalls
    = Returns (res, c')
    /\ length (predictions res) = 0%nat
    /\ Z.of_nat (length (predictions res)) <> 1%Z.
Proof.
  eexists. eexists. split; [vm_compute; reflexivity |].
  cbn [predictions length]. split; [reflexivity | discriminate].
Qed.

(** C1, amended: for every observed series of three points or more and
    every positive horizon, the forecast returns exactly horizon points,
    each marked predicted and each with a value of at least 0.2 times the
    last observed value. *)
Theorem forecast_points_floor env historicalData months c :
  (3 <= length historicalData)%nat -> (0 < months)%Z ->
  exists res c',
    generateEnhancedPredictions env historicalData months c = Returns (res, c')
    /\ Z.of_nat (length (predictions res)) = months
    /\ Forall (fun p => predicted p = Some true
                        /\ (2 # 10) * last (map value historicalData) 0 <= value p)
              (predictions res).
Proof.
  intros Hn Hm.
  destruct (generateEnhancedPredictions_runs env historicalData months c Hn)
    as (polyResult & _ & Hrun).
  eexists. eexists. split; [exact Hrun |]. cbn [predictions]. split.
  - rewrite predictLoop_length. cbn [length]. lia.
  - apply predictLoop_Forall; [| constructor].
    intros j d. split; [apply predictStep_predicted |].
    rewrite <- nth_pred_last.
    + apply predictStep_floor.
    + destruct historicalData; [cbn [length] in Hn; lia | discriminate].
Qed.

Lemma forecast_points_floor_witness :
  exists res c',
    generateEnhancedPredictions calmAmbient (observe [100; 100; 106]) 2 noCalls
    = Returns (res, c')
    /\ Z.of_nat (length (predictions res)) = 2%Z
    /\ Forall (fun p => predicted p = Some true
                        /\ (2 # 10) * last (map value (observe [100; 100; 106])) 0
                           <= value p)
              (predictions res).
Proof.
  apply (forecast_points_floor calmAmbient (observe [100; 100; 106]) 2 noCalls);
    [cbn [observe map length]; lia | lia].
Defined.

(** ** The double product *)

Lemma nearest_even_error x :
  Qabs (inject_Z (nearest_even x) - x) <= 1 # 2.
Proof.
  unfold nearest_even.
  pose proof (Qfloor_le x) as Hlo. pose proof (Qlt_floor x) as Hhi.
  rewrite inject_Z_plus in Hhi. change (inject_Z 1) with 1 in Hhi.
  set (f := Qfloor x) in *.
  apply Qabs_Qle_condition.
  destruct (Qcompare (x - inject_Z f) (1 # 2)) eqn:E.
  - apply Qeq_alt in E.
    destruct (Z.even f); [| rewrite inject_Z_plus; change (inject_Z 1) with 1];
      split; lra.
  - apply Qlt_alt in E. split; lra.
  - apply Qgt_alt in E. rewrite inject_Z_plus. change (inject_Z 1) with 1.
    split; lra.
Qed.

Lemma two_power_pos z : 0 < 2 ^ z.
Proof. apply Qpower_0_lt. reflexivity. Qed.

Lemma log2_lower (n : Z) : (0 < n)%Z -> 2 ^ Z.log2 n <= inject_Z n.
Proof.
  intros Hn. change 2 with (inject_Z 2).
  rewrite <- Zpower_Qpower by apply Z.log2_nonneg.
  rewrite <- Zle_Qle. apply Z.log2_spec. exact Hn.
Qed.

Lemma log2_upper (n : Z) : (0 < n)%Z -> inject_Z n <= 2 ^ (Z.log2 n + 1).
Proof.
  intros Hn. change 2 with (inject_Z 2).
  rewrite <- Zpower_Qpower by (pose proof (Z.log2_nonneg n); lia).
  rewrite <- Zle_Qle. pose proof (Z.log2_spec n Hn).
  replace (Z.log2 n + 1)%Z with (Z.succ (Z.log2 n)) by lia. lia.
Qed.

Lemma binade_lower a : 0 < a -> 2 ^ (binade a + 52) <= a.
Proof.
  intros Ha. unfold binade.
  set (k := (Z.log2 (Qnum a) - Z.log2 (Zpos (Qden a)))%Z).
  destruct (Qle_bool (2 ^ k) a) eqn:E.
  - apply Qle_bool_iff in E. replace (k - 52 + 52)%Z with k by lia. exact E.
  - replace (k - 53 + 52)%Z
      with (Z.log2 (Qnum a) - (Z.log2 (Zpos (Qden a)) + 1))%Z by (subst k; lia).
    rewrite Qpower_minus by discriminate.
    assert (Hn : (0 < Qnum a)%Z).
    { destruct a as [n d]. unfold Qlt in Ha. cbn in *. lia. }
    pose proof (log2_lower (Qnum a) Hn) as H1.
    pose proof (log2_upper (Zpos (Qden a)) ltac:(lia)) as H2.
    pose proof (two_power_pos (Z.log2 (Zpos (Qden a)) + 1)) as Hp.
    pose proof (two_power_pos (Z.log2 (Qnum a))) as Hpn.
    assert (Hd : 0 < inject_Z (Zpos (Qden a))) by reflexivity.
    assert (Ha' : a == inject_Z (Qnum a) / inject_Z (Zpos (Qden a))).
    { destruct a as [n d]. cbn [Qnum Qden]. apply Qmake_Qdiv. }
    rewrite Ha' at 3.
    set (N := inject_Z (Qnum a)) in *. set (D := inject_Z (Zpos (Qden a))) in *.
    set (PN := 2 ^ Z.log2 (Qnum a)) in *.
    set (PD := 2 ^ (Z.log2 (Zpos (Qden a)) + 1)) in *.
    apply Qle_shift_div_l; [exact Hd |].
    assert (Ht : 0 <= PN / PD) by (apply Qle_shift_div_l; [exact Hp | lra]).
    assert (Hm : PN / PD * PD == PN) by (field; lra).
    set (t := PN / PD) in *. nra.
Qed.

Lemma round53_wd p q : p == q -> round53 p = round53 q.
Proof. intros H. unfold round53. rewrite (Qred_complete p q H). reflexivity. Qed.

(** The rounding moves a number by at most 2^-53 of its size. *)
Lemma round53_error q : Qabs (round53 q - q) <= Qabs q * (1 # 9007199254740992).
Proof.
  rewrite <- (Qred_correct q) at 2 3. unfold round53.
  set (r := Qred q).
  destruct (Qeq_bool r 0) eqn:E0.
  - apply Qeq_bool_iff in E0. rewrite E0. vm_compute. discriminate.
  - apply Qeq_bool_neq in E0.
    assert (Ha : 0 < Qabs r).
    { pose proof (Qabs_nonneg r) as H. apply Qle_lteq in H.
      destruct H as [H | H]; [exact H |].
      exfalso. apply E0. symmetry in H.
      pose proof (Qabs_Qle_condition r 0) as C. rewrite H in C.
      destruct C as [C _]. specialize (C (Qle_refl 0)). lra. }
    set (a := Qabs r) in *.
    pose proof (binade_lower a Ha) as He.
    set (e := binade a) in *.
    pose proof (nearest_even_error (a / 2 ^ e)) as Hm.
    set (m := inject_Z (nearest_even (a / 2 ^ e))) in *.
    pose proof (two_power_pos e) as Hp.
    rewrite Qpower_plus in He by discriminate.
    change (2 ^ 52) with 4503599627370496 in He.
    apply Qabs_Qle_condition in Hm. destruct Hm as [Hm1 Hm2].
    assert (Hx : a / 2 ^ e * 2 ^ e == a) by (field; lra).
    set (P := 2 ^ e) in *. set (x := a / P) in *.
    assert (Hbound : - (a * (1 # 9007199254740992)) <= m * P - a
                     /\ m * P - a <= a * (1 # 9007199254740992)).
    { split; nra. }
    destruct Hbound as [Hb1 Hb2].
    apply Qabs_Qle_condition.
    destruct (Qle_bool 0 r) eqn:Es.
    + apply Qle_bool_iff in Es.
      assert (Har : a == r) by (apply Qabs_pos; exact Es).
      rewrite <- Har. split; lra.
    + assert (Hneg : r <= 0).
      { destruct (Qlt_le_dec 0 r) as [H | H]; [| exact H].
        apply Qlt_le_weak in H. apply Qle_bool_iff in H. congruence. }
      assert (Har : a == - r) by (apply Qabs_neg; exact Hneg).
      split; lra.
Qed.

Lemma c1_05_value : c1_05 = 4728779608739021 # 4503599627370496.
Proof. vm_compute. reflexivity. Qed.

Lemma c0_95_value : c0_95 = 8556839292003942 # 9007199254740992.
Proof. vm_compute. reflexivity. Qed.

(** Where the rounded products by 1.05 and 0.95 fall, next to the number
    itself. *)
Lemma fmul_1_05_pos v : 0 <= v -> v <= fmul v c1_05.
Proof.
  intros Hv. unfold fmul. pose proof (round53_error (v * c1_05)) as H.
  apply Qabs_Qle_condition in H. destruct H as [H1 _].
  rewrite Qabs_pos in H1 by (rewrite c1_05_value; nra).
  rewrite c1_05_value in *. set (r := round53 _) in *. nra.
Qed.

Lemma fmul_1_05_neg v : v < 0 -> fmul v c1_05 < v.
Proof.
  intros Hv. unfold fmul. pose proof (round53_error (v * c1_05)) as H.
  apply Qabs_Qle_condition in H. destruct H as [_ H2].
  rewrite Qabs_neg in H2 by (rewrite c1_05_value; nra).
  rewrite c1_05_value in *. set (r := round53 _) in *. nra.
Qed.

Lemma fmul_0_95_pos v : 0 <= v -> fmul v c0_95 <= v.
Proof.
  intros Hv. unfold fmul. pose proof (round53_error (v * c0_95)) as H.
  apply Qabs_Qle_condition in H. destruct H as [_ H2].
  rewrite Qabs_pos in H2 by (rewrite c0_95_value; nra).
  rewrite c0_95_value in *. set (r := round53 _) in *. nra.
Qed.

Lemma fmul_wd x x' y : x == x' -> fmul x y = fmul x' y.
Proof. intros H. unfold fmul. apply round53_wd. rewrite H. reflexivity. Qed.

Lemma classifyTrend_spec (a b c : Q) :
  (fmul a c1_05 < c -> classifyTrend [a; b; c] = up)
  /\ (~ fmul a c1_05 < c -> c < fmul a c0_95 ->
      classifyTrend [a; b; c] = down)
  /\ (~ fmul a c1_05 < c -> ~ c < fmul a c0_95 ->
      classifyTrend [a; b; c] = stable).
Proof.
  unfold classifyTrend, at_. cbn [nth]. repeat split.
  - intros H. apply ltb_lt in H. rewrite H. reflexivity.
  - intros H1 H2. apply ltb_nlt in H1. apply ltb_lt in H2.
    rewrite H1, H2. reflexivity.
  - intros H1 H2. apply ltb_nlt in H1. apply ltb_nlt in H2.
    rewrite H1, H2. reflexivity.
Qed.

Lemma recent_three_of_suffix (pre : list Q) (a b c : Q) :
  slice_from (pre ++ [a; b; c]) (-3) = [a; b; c].
Proof.
  rewrite recent_three by (rewrite length_app; cbn [length]; lia).
  rewrite length_app. cbn [length].
  replace (length pre + 3 - 3)%nat with (length pre + 0)%nat by lia.
  replace (length pre + 3 - 2)%nat with (length pre + 1)%nat by lia.
  replace (length pre + 3 - 1)%nat with (length pre + 2)%nat by lia.
  rewrite !app_nth2_plus. reflexivity.
Qed.

(** C6, as stated, fails on the threshold.  With the double nearest to
    1.05 as last value after 1, 1, the last value exceeds first * 1.05 and
    yet the label is stable; with the double nearest to 0.95 the last value
    is below first * 0.95 and the label is stable too.  The code compares
    with the rounded products. *)
Lemma label_on_the_threshold :
  (exists res c',
      generateEnhancedPredictions calmAmbient (observe [1; 1; c1_05]) 1 noCalls
      = Returns (res, c')
      /\ 1 * (105 # 100) < c1_05
      /\ trendDirection res = stable)
  /\ (exists res c',
        generateEnhancedPredictions calmAmbient (observe [1; 1; c0_95]) 1 noCalls
        = Returns (res, c')
        /\ c0_95 < 1 * (95 # 100)
        /\ trendDirection res = stable).
Proof.
  split.
  - destruct (generateEnhancedPredictions_runs
                calmAmbient (observe [1; 1; c1_05]) 1 noCalls)
      as (polyResult & _ & Hrun); [cbn [observe map length]; lia |].
    eexists. eexists. split; [exact Hrun |].
    split; [vm_compute; reflexivity |].
    cbn [trendDirection]. vm_compute. reflexivity.
  - destruct (generateEnhancedPredictions_runs
                calmAmbient (observe [1; 1; c0_95]) 1 noCalls)
      as (polyResult & _ & Hrun); [cbn [observe map length]; lia |].
    eexists. eexists. split; [exact Hrun |].
    split; [vm_compute; reflexivity |].
    cbn [trendDirection]. vm_compute. reflexivity.
Qed.

(** C6, amended: for every observed series of three points or more the
    trend label is decided by the first and the last of the three most
    recent values, compared with the products as the double multiplication
    rounds them: up when last > fl(first * 1.05), otherwise down when
    last < fl(first * 0.95), otherwise stable, 1.05 and 0.95 being the
    doubles nearest to those decimals.  A series ending in 100, 100, 106 is
    labelled up, one ending in 100, 100, 94 down, one ending in
    100, 100, 101 stable. *)
Theorem trend_label_from_recent_three env historicalData months c :
  (3 <= length historicalData)%nat ->
  exists res c',
    generateEnhancedPredictions env historicalData months c = Returns (res, c')
    /\ (let n := length historicalData in
        let first := nth (n - 3) (map value historicalData) 0 in
        let last := nth (n - 1) (map value historicalData) 0 in
        (fmul first c1_05 < last -> trendDirection res = up)
        /\ (~ fmul first c1_05 < last -> last < fmul first c0_95 ->
            trendDirection res = down)
        /\ (~ fmul first c1_05 < last -> ~ last < fmul first c0_95 ->
            trendDirection res = stable))
    /\ (forall pre, map value historicalData = pre ++ [100; 100; 106] ->
                    trendDirection res = up)
    /\ (forall pre, map value historicalData = pre ++ [100; 100; 94] ->
                    trendDirection res = down)
    /\ (forall pre, map value historicalData = pre ++ [100; 100; 101] ->
                    trendDirection res = stable).
Proof.
  intros Hn.
  destruct (generateEnhancedPredictions_runs env historicalData months c Hn)
    as (polyResult & _ & Hrun).
  eexists. eexists. split; [exact Hrun |]. cbn [trendDirection].
  split; [| repeat split].
  - cbv zeta. rewrite recent_three by (rewrite length_map; exact Hn).
    rewrite length_map. apply classifyTrend_spec.
  - intros pre ->. rewrite recent_three_of_suffix. vm_compute. reflexivity.
  - intros pre ->. rewrite recent_three_of_suffix. vm_compute. reflexivity.
  - intros pre ->. rewrite recent_three_of_suffix. vm_compute. reflexivity.
Qed.

Lemma trend_label_from_recent_three_witness :
  exists res c',
    generateEnhancedPredictions calmAmbient (observe [7; 100; 100; 106]) 1 noCalls
    = Returns (res, c')
    /\ trendDirection res = up.
Proof.
  destruct (trend_label_from_recent_three calmAmbient
              (observe [7; 100; 100; 106]) 1 noCalls)
    as (res & c' & Hrun & _ & Hup & _); [cbn [observe map length]; lia |].
  exists res, c'. split; [exact Hrun |].
  apply (Hup [7]). reflexivity.
Defined.

(** With the draw at 1/2 the noise term is zero. *)
Lemma noise_vanishes env k uncertainty :
  Math_random env k = 1 # 2 ->
  (Math_random env k - (1 # 2)) * uncertainty == 0.
Proof. intros ->. ring. Qed.

Section Determinism.

Variables env1 env2 : Ambient.
Variable m : nat.
Hypothesis same_sin : forall x, Math_sin env1 x = Math_sin env2 x.
Hypothesis draws1 : forall k, Math_random env1 k = 1 # 2.
Hypothesis draws2 : forall k, Math_random env2 k = 1 # 2.
Hypothesis clock1 : forall k, Date_getMonth env1 k = m.
Hypothesis clock2 : forall k, Date_getMonth env2 k = m.

Variables (values : list Q) (polyResult : FitResult) (season : Seasonality).

Lemma predictStep_fixed_sources i c1 c2 :
  fst (predictStep env1 values polyResult season i c1)
  = fst (predictStep env2 values polyResult season i c2).
Proof.
  unfold predictStep. cbn [fst].
  rewrite same_sin, draws1, draws2, clock1, clock2. reflexivity.
Qed.

Lemma predictLoop_fixed_sources left i acc c1 c2 :
  fst (predictLoop env1 values polyResult season left i acc c1)
  = fst (predictLoop env2 values polyResult season left i acc c2).
Proof.
  revert i acc c1 c2.
  induction left as [| left IH]; intros i acc c1 c2; cbn [predictLoop];
    [reflexivity |].
  pose proof (predictStep_fixed_sources i c1 c2) as Hstep.
  destruct (predictStep env1 values polyResult season i c1) as [p1 d1].
  destruct (predictStep env2 values polyResult season i c2) as [p2 d2].
  cbn [fst] in Hstep. subst p2. apply IH.
Qed.

End Determinism.

(** C5: when every draw of the random source is 0.5 and every read of the
    clock gives the same month, two calls of the forecast on the same
    observed series and horizon return the same result, whatever the
    number of draws and clock reads made before each call. *)
Theorem forecast_deterministic env1 env2 m historicalData months c1 c2 :
  (forall x, Math_sin env1 x = Math_sin env2 x) ->
  (forall k, Math_random env1 k = 1 # 2) ->
  (forall k, Math_random env2 k = 1 # 2) ->
  (forall k, Date_getMonth env1 k = m) ->
  (forall k, Date_getMonth env2 k = m) ->
  exists res c1' c2',
    generateEnhancedPredictions env1 historicalData months c1 = Returns (res, c1')
    /\ generateEnhancedPredictions env2 historicalData months c2 = Returns (res, c2').
Proof.
  intros Hsin Hr1 Hr2 Hm1 Hm2.
  destruct (Nat.ltb_spec (length historicalData) 3) as [Hlt | Hge].
  - exists zeroResult, c1, c2.
    split; apply generateEnhancedPredictions_short; exact Hlt.
  - destruct (generateEnhancedPredictions_runs env1 historicalData months c1 Hge)
      as (fit1 & Hfit1 & Hrun1).
    destruct (generateEnhancedPredictions_runs env2 historicalData months c2 Hge)
      as (fit2 & Hfit2 & Hrun2).
    rewrite Hfit1 in Hfit2. injection Hfit2 as <-.
    rewrite (predictLoop_fixed_sources env1 env2 m Hsin Hr1 Hr2 Hm1 Hm2
               _ _ _ _ _ _ c1 c2) in Hrun1.
    eexists. eexists. eexists. split; [exact Hrun1 | exact Hrun2].
Qed.

Lemma forecast_deterministic_witness :
  exists res c1' c2',
    generateEnhancedPredictions calmAmbient (observe [100; 100; 106]) 2 noCalls
    = Returns (res, c1')
    /\ generateEnhancedPredictions calmAmbient (observe [100; 100; 106]) 2
         {| rand_calls := 2; date_calls := 2 |}
       = Returns (res, c2').
Proof.
  apply (forecast_deterministic calmAmbient calmAmbient 10
           (observe [100; 100; 106]) 2 noCalls
           {| rand_calls := 2; date_calls := 2 |});
    intros; reflexivity.
Defined.


(** * Further properties of the code *)

(** ** Sums *)

Lemma of_nat_S n : of_nat (S n) == of_nat n + 1.
Proof.
  unfold of_nat. rewrite Nat2Z.inj_succ, <- Z.add_1_r, inject_Z_plus.
  reflexivity.
Qed.

Lemma of_nat_nonneg n : 0 <= of_nat n.
Proof.
  unfold of_nat. change 0 with (inject_Z 0). rewrite <- Zle_Qle. lia.
Qed.

Lemma of_nat_le n m : (n <= m)%nat -> of_nat n <= of_nat m.
Proof. intros H. unfold of_nat. rewrite <- Zle_Qle. lia. Qed.

Lemma of_nat_pos n : (0 < n)%nat -> 0 < of_nat n.
Proof.
  intros H. unfold of_nat. change 0 with (inject_Z 0). rewrite <- Zlt_Qlt. lia.
Qed.

Lemma Math_pow_2 x : Math_pow x 2 = x * x.
Proof. reflexivity. Qed.

Lemma square_nonneg (x : Q) : 0 <= x * x.
Proof. nra. Qed.

Lemma bigsum_ext g h n :
  (forall i, (i < n)%nat -> g i == h i) -> bigsum g n == bigsum h n.
Proof.
  induction n as [| n IH]; intros Hgh; cbn [bigsum]; [reflexivity |].
  rewrite IH by (intros i Hi; apply Hgh; lia).
  rewrite (Hgh n) by lia. reflexivity.
Qed.

Lemma bigsum_shift g n :
  bigsum g (S n) == g 0%nat + bigsum (fun i => g (S i)) n.
Proof.
  induction n as [| n IH].
  - cbn [bigsum]. ring.
  - change (bigsum g (S (S n))) with (bigsum g (S n) + g (S n)).
    rewrite IH. cbn [bigsum]. ring.
Qed.

Lemma bigsum_nonneg g n : (forall i, 0 <= g i) -> 0 <= bigsum g n.
Proof.
  intros Hg. induction n as [| n IH]; cbn [bigsum]; [apply Qle_refl |].
  specialize (Hg n). lra.
Qed.

Lemma bigsum_zero g n : (forall i, (i < n)%nat -> g i == 0) -> bigsum g n == 0.
Proof.
  induction n as [| n IH]; intros Hg; cbn [bigsum]; [reflexivity |].
  rewrite IH by (intros i Hi; apply Hg; lia).
  rewrite (Hg n) by lia. ring.
Qed.

Lemma bigsum_plus g h n :
  bigsum (fun i => g i + h i) n == bigsum g n + bigsum h n.
Proof.
  induction n as [| n IH]; cbn [bigsum]; [ring |]. rewrite IH. ring.
Qed.

Lemma bigsum_scale k g n : bigsum (fun i => k * g i) n == k * bigsum g n.
Proof.
  induction n as [| n IH]; cbn [bigsum]; [ring |]. rewrite IH. ring.
Qed.

Lemma bigsum_const k n : bigsum (fun _ => k) n == of_nat n * k.
Proof.
  induction n as [| n IH]; cbn [bigsum].
  - unfold of_nat. cbn. ring.
  - rewrite IH, of_nat_S. ring.
Qed.

(** A loop that adds [g k] for k = 0, ..., n-1. *)
Lemma fold_left_seq_bigsum (g : nat -> Q) n acc :
  fold_left (fun s k => s + g k) (seq 0 n) acc == acc + bigsum g n.
Proof.
  induction n as [| n IH].
  - cbn [seq fold_left bigsum]. ring.
  - rewrite seq_S, fold_left_app. cbn [fold_left bigsum Nat.add].
    rewrite IH. ring.
Qed.

(** A [reduce] whose callback adds a term made of the element and its
    index. *)
Lemma reduce_from_bigsum {A} (h : A -> nat -> Q) (d : A) l idx acc :
  reduce_from (fun s x i => s + h x i) l idx acc
  == acc + bigsum (fun k => h (nth k l d) (idx + k)%nat) (length l).
Proof.
  revert idx acc. induction l as [| x l IH]; intros idx acc.
  - cbn [reduce_from length bigsum]. ring.
  - cbn [reduce_from length]. rewrite IH, bigsum_shift.
    cbn [nth]. rewrite Nat.add_0_r.
    rewrite (bigsum_ext (fun k => h (nth k l d) (S idx + k)%nat)
                        (fun i => h (nth i l d) (idx + S i)%nat)).
    + ring.
    + intros i _. rewrite Nat.add_succ_r. reflexivity.
Qed.

Lemma reduce_bigsum {A} (h : A -> nat -> Q) (d : A) l :
  reduce (fun s x i => s + h x i) l 0
  == bigsum (fun k => h (nth k l d) k) (length l).
Proof.
  unfold reduce. rewrite (reduce_from_bigsum h d). cbn [Nat.add]. ring.
Qed.

(** The two sums of the loop that computes the goodness of fit. *)
Lemma fold_left_pair (f g : nat -> Q) l r t :
  fold_left (fun '(r, t) i => (r + f i, t + g i)) l (r, t)
  = (fold_left (fun r i => r + f i) l r, fold_left (fun t i => t + g i) l t).
Proof.
  revert r t. induction l as [| i l IH]; intros r t; [reflexivity |].
  cbn [fold_left]. apply IH.
Qed.

(** Closed forms of the sums of the time indices and of their squares. *)
Lemma sum_indices n : 2 * bigsum of_nat n == of_nat n * (of_nat n - 1).
Proof.
  induction n as [| n IH].
  - cbn [bigsum]. unfold of_nat. cbn. ring.
  - cbn [bigsum]. rewrite of_nat_S.
    setoid_replace (2 * (bigsum of_nat n + of_nat n))
      with (2 * bigsum of_nat n + 2 * of_nat n) by ring.
    rewrite IH. ring.
Qed.

Lemma sum_squares n :
  6 * bigsum (fun i => of_nat i * of_nat i) n
  == (of_nat n - 1) * of_nat n * (2 * of_nat n - 1).
Proof.
  induction n as [| n IH].
  - cbn [bigsum]. unfold of_nat. cbn. ring.
  - cbn [bigsum]. rewrite of_nat_S.
    setoid_replace (6 * (bigsum (fun i => of_nat i * of_nat i) n
                         + of_nat n * of_nat n))
      with (6 * bigsum (fun i => of_nat i * of_nat i) n
            + 6 * (of_nat n * of_nat n)) by ring.
    rewrite IH. ring.
Qed.

(** The determinant of the normal equations of a line through two points
    or more is at least 1. *)
Lemma spread_at_least_1 n :
  (2 <= n)%nat ->
  1 <= of_nat n * bigsum (fun i => of_nat i * of_nat i) n
       - bigsum of_nat n * bigsum of_nat n.
Proof.
  intros Hn.
  pose proof (sum_indices n) as H1. pose proof (sum_squares n) as H2.
  pose proof (of_nat_le 2 n Hn) as HN. change (of_nat 2) with 2 in HN.
  set (N := of_nat n) in *.
  set (s1 := bigsum of_nat n) in *.
  set (s2 := bigsum (fun i => of_nat i * of_nat i) n) in *.
  assert (H12 : 12 * (N * s2 - s1 * s1) == N * N * (N - 1) * (N + 1)).
  { setoid_replace (12 * (N * s2 - s1 * s1))
      with (2 * N * (6 * s2) - 3 * ((2 * s1) * (2 * s1))) by ring.
    rewrite H1, H2. ring. }
  assert (HNN : 4 <= N * N) by nra.
  assert (Hp : 3 <= (N - 1) * (N + 1)) by nra.
  assert (12 <= N * N * ((N - 1) * (N + 1))) by nra.
  setoid_replace (N * N * (N - 1) * (N + 1))
    with (N * N * ((N - 1) * (N + 1))) in H12 by ring.
  lra.
Qed.

(** ** The 2 x 2 solver *)

(** X1.  On a 2 x 2 system the solver returns two numbers.  When the
    absolute value of the determinant is below 1e-10 they are both 0;
    otherwise they solve the system: A x = b, by Cramer's rule. *)
Theorem cramer_solves_the_system (a b c d e f : Q) :
  exists x y,
    gaussianElimination [[a; b]; [c; d]] [e; f] = Returns [x; y]
    /\ (Qabs (a * d - b * c) < 1 # 10000000000 -> x = 0 /\ y = 0)
    /\ (~ Qabs (a * d - b * c) < 1 # 10000000000 ->
        a * x + b * y == e /\ c * x + d * y == f).
Proof.
  unfold gaussianElimination. cbn [length Nat.eqb at2 at_ nth].
  destruct (ltb (Qabs (a * d - b * c)) (1 # 10000000000)) eqn:Hdet.
  - exists 0, 0. split; [reflexivity |]. split; [intros _; split; reflexivity |].
    intros Hn. apply ltb_lt in Hdet. contradiction.
  - eexists. eexists. split; [reflexivity |].
    apply ltb_nlt in Hdet. split; [intros H; contradiction |].
    intros _.
    assert (Hne : ~ a * d - b * c == 0).
    { intros H0. apply Hdet. rewrite H0. reflexivity. }
    split; field; exact Hne.
Qed.

Lemma cramer_solves_the_system_witness :
  exists x y,
    gaussianElimination [[2; 1]; [1; 3]] [5; 10] = Returns [x; y]
    /\ 2 * x + 1 * y == 5 /\ 1 * x + 3 * y == 10.
Proof.
  destruct (cramer_solves_the_system 2 1 1 3 5 10) as (x & y & Hres & _ & Hsolve).
  exists x, y. split; [exact Hres |].
  apply Hsolve. vm_compute. discriminate.
Defined.

(** ** The linear fit *)

Lemma lin_sumX n :
  reduce (fun a b (_ : nat) => a + b) (map of_nat (seq 0 n)) 0
  == bigsum of_nat n.
Proof.
  etransitivity; [apply (reduce_bigsum (fun b (_ : nat) => b) 0) |].
  rewrite length_map, length_seq. apply bigsum_ext.
  intros i Hi. rewrite nth_map_seq by exact Hi. reflexivity.
Qed.

Lemma lin_sumY data :
  reduce (fun a b (_ : nat) => a + b) data 0 == bigsum (at_ data) (length data).
Proof.
  etransitivity; [apply (reduce_bigsum (fun b (_ : nat) => b) 0) |].
  reflexivity.
Qed.

Lemma lin_sumXY data n :
  reduce (fun acc xi i => acc + xi * at_ data i) (map of_nat (seq 0 n)) 0
  == bigsum (fun i => of_nat i * at_ data i) n.
Proof.
  etransitivity; [apply (reduce_bigsum (fun xi i => xi * at_ data i) 0) |].
  rewrite length_map, length_seq. apply bigsum_ext.
  intros i Hi. rewrite nth_map_seq by exact Hi. reflexivity.
Qed.

Lemma lin_sumXX n :
  reduce (fun acc xi (_ : nat) => acc + xi * xi) (map of_nat (seq 0 n)) 0
  == bigsum (fun i => of_nat i * of_nat i) n.
Proof.
  etransitivity; [apply (reduce_bigsum (fun xi (_ : nat) => xi * xi) 0) |].
  rewrite length_map, length_seq. apply bigsum_ext.
  intros i Hi. rewrite nth_map_seq by exact Hi. reflexivity.
Qed.

(** Slope and intercept, in terms of the sums over the series. *)
Lemma linearRegression_sums data :
  (2 <= length data)%nat ->
  let n := length data in
  let SX := bigsum of_nat n in
  let SY := bigsum (at_ data) n in
  let SXY := bigsum (fun i => of_nat i * at_ data i) n in
  let SXX := bigsum (fun i => of_nat i * of_nat i) n in
  slope (linearRegression data)
  == (of_nat n * SXY - SX * SY) / (of_nat n * SXX - SX * SX)
  /\ intercept (linearRegression data)
     == (SY - slope (linearRegression data) * SX) / of_nat n.
Proof.
  intros Hn n SX SY SXY SXX. unfold linearRegression. fold n.
  destruct (Nat.ltb_spec n 2) as [Hlt | _]; [subst n; lia |].
  cbn [slope intercept].
  rewrite !lin_sumX, !lin_sumY, !lin_sumXY, !lin_sumXX.
  split; reflexivity.
Qed.

(** The goodness of fit, in terms of slope and intercept. *)
Lemma linearRegression_r2 data :
  (2 <= length data)%nat ->
  lin_r2 (linearRegression data)
  = (let n := length data in
     let meanY := reduce (fun a b (_ : nat) => a + b) data 0 / of_nat n in
     let ssRes :=
       reduce (fun acc yi i =>
                 acc + Math_pow (yi - (slope (linearRegression data) * of_nat i
                                       + intercept (linearRegression data))) 2)
              data 0 in
     let ssTot :=
       reduce (fun acc yi (_ : nat) => acc + Math_pow (yi - meanY) 2) data 0 in
     if Qeq_bool ssTot 0 then 1 else 1 - ssRes / ssTot).
Proof.
  intros Hn. unfold linearRegression.
  destruct (Nat.ltb_spec (length data) 2) as [Hlt | _]; [lia |].
  reflexivity.
Qed.

Lemma r2_formula_le_1 (ssRes ssTot : Q) :
  0 <= ssRes -> 0 <= ssTot ->
  (if Qeq_bool ssTot 0 then 1 else 1 - ssRes / ssTot) <= 1.
Proof.
  intros Hres Htot. destruct (Qeq_bool ssTot 0) eqn:E; [apply Qle_refl |].
  apply Qeq_bool_neq in E.
  assert (Hpos : 0 < ssTot) by (apply Qle_lteq in Htot; destruct Htot as [H | H];
                                [exact H | exfalso; apply E; symmetry; exact H]).
  assert (Hq : 0 <= ssRes / ssTot).
  { apply Qle_shift_div_l; [exact Hpos | lra]. }
  set (q := ssRes / ssTot) in *. lra.
Qed.


Lemma linearSeries_length a b n : length (linearSeries a b n) = n.
Proof. unfold linearSeries. rewrite length_map, length_seq. reflexivity. Qed.

Lemma linearSeries_at a b n i :
  (i < n)%nat -> at_ (linearSeries a b n) i = a + b * of_nat i.
Proof.
  intros Hi. unfold at_, linearSeries.
  exact (nth_map_seq (fun i => a + b * of_nat i) 0 n i Hi).
Qed.

Lemma linearSeries_SY a b n :
  bigsum (at_ (linearSeries a b n)) n == of_nat n * a + b * bigsum of_nat n.
Proof.
  rewrite (bigsum_ext _ (fun i => a + b * of_nat i))
    by (intros i Hi; rewrite linearSeries_at by exact Hi; reflexivity).
  rewrite (bigsum_plus (fun _ => a) (fun i => b * of_nat i)).
  rewrite bigsum_const, bigsum_scale. reflexivity.
Qed.

Lemma linearSeries_SXY a b n :
  bigsum (fun i => of_nat i * at_ (linearSeries a b n) i) n
  == a * bigsum of_nat n + b * bigsum (fun i => of_nat i * of_nat i) n.
Proof.
  rewrite (bigsum_ext _ (fun i => a * of_nat i + b * (of_nat i * of_nat i))).
  - rewrite (bigsum_plus (fun i => a * of_nat i)
                         (fun i => b * (of_nat i * of_nat i))).
    rewrite !bigsum_scale. reflexivity.
  - intros i Hi. rewrite linearSeries_at by exact Hi. ring.
Qed.

(** Slope and intercept of the fit of an exactly linear series. *)
Lemma linearSeries_fit (a b : Q) (n : nat) :
  (2 <= n)%nat ->
  slope (linearRegression (linearSeries a b n)) == b
  /\ intercept (linearRegression (linearSeries a b n)) == a.
Proof.
  intros Hn.
  pose proof (linearRegression_sums (linearSeries a b n)) as Hsums.
  rewrite linearSeries_length in Hsums. specialize (Hsums Hn). cbv zeta in Hsums.
  destruct Hsums as [Hslope Hicpt].
  rewrite linearSeries_SY, linearSeries_SXY in Hslope.
  rewrite linearSeries_SY in Hicpt.
  pose proof (spread_at_least_1 n Hn) as Hdet.
  pose proof (of_nat_pos n ltac:(lia)) as HN.
  set (N := of_nat n) in *. set (SX := bigsum of_nat n) in *.
  set (SXX := bigsum (fun i => of_nat i * of_nat i) n) in *.
  assert (Hs : slope (linearRegression (linearSeries a b n)) == b).
  { rewrite Hslope. field. lra. }
  split; [exact Hs |].
  rewrite Hicpt, Hs. field. lra.
Qed.



(** X3.  For every series of two points or more the fitted line passes
    through the centroid: at the mean time index (n-1)/2 it takes the mean
    of the series. *)
Theorem linearRegression_through_centroid (data : list Q) :
  (2 <= length data)%nat ->
  intercept (linearRegression data)
  + slope (linearRegression data) * ((of_nat (length data) - 1) / 2)
  == sum data / of_nat (length data).
Proof.
  intros Hn.
  destruct (linearRegression_sums data Hn) as [_ Hicpt]. cbv zeta in Hicpt.
  pose proof (sum_indices (length data)) as HSX.
  pose proof (of_nat_pos (length data) ltac:(lia)) as HN.
  unfold sum. rewrite lin_sumY, Hicpt.
  set (N := of_nat (length data)) in *.
  set (SX := bigsum of_nat (length data)) in *.
  set (SY := bigsum (at_ data) (length data)) in *.
  set (s := slope (linearRegression data)) in *.
  assert (HSX' : SX == N * (N - 1) / 2) by (rewrite <- HSX; field).
  rewrite HSX'. field. lra.
Qed.

Lemma linearRegression_through_centroid_witness :
  intercept (linearRegression [2; 7; 3; 8])
  + slope (linearRegression [2; 7; 3; 8]) * ((of_nat 4 - 1) / 2)
  == sum [2; 7; 3; 8] / of_nat 4.
Proof.
  apply (linearRegression_through_centroid [2; 7; 3; 8]). cbn [length]. lia.
Defined.

(** The goodness of fit computed by the polynomial fit. *)
Lemma polynomialRegression_r2 data degree coefs :
  (degree + 1 <= length data)%nat ->
  solveNormalEquations (designMatrix (length data) degree) data = Returns coefs ->
  polynomialRegression data degree
  = Returns
      {| coefficients := coefs;
         r2 :=
           let n := length data in
           let meanY := sum data / of_nat n in
           let ssRes :=
             fold_left (fun r i =>
                          r + Math_pow (at_ data i - polyEval coefs (of_nat i)) 2)
                       (seq 0 n) 0 in
           let ssTot :=
             fold_left (fun t i => t + Math_pow (at_ data i - meanY) 2)
                       (seq 0 n) 0 in
           if Qeq_bool ssTot 0 then 1 else 1 - ssRes / ssTot |}.
Proof.
  intros Hn Hsolve. unfold polynomialRegression.
  destruct (Nat.ltb_spec (length data) (degree + 1)) as [Hlt | _]; [lia |].
  rewrite Hsolve. cbn [bind]. cbv zeta.
  rewrite (fold_left_pair
             (fun i => Math_pow (at_ data i - polyEval coefs (of_nat i)) 2)
             (fun i => Math_pow (at_ data i
                                 - sum data / of_nat (length data)) 2)).
  reflexivity.
Qed.

Lemma squares_loop_nonneg (g : nat -> Q) n :
  0 <= fold_left (fun s i => s + Math_pow (g i) 2) (seq 0 n) 0.
Proof.
  rewrite (fold_left_seq_bigsum (fun i => Math_pow (g i) 2)).
  pose proof (bigsum_nonneg (fun i => Math_pow (g i) 2) n) as H.
  rewrite Qplus_0_l. apply H. intros i. rewrite Math_pow_2. apply square_nonneg.
Qed.

Lemma squares_reduce_nonneg (g : Q -> nat -> Q) data :
  0 <= reduce (fun acc yi i => acc + Math_pow (g yi i) 2) data 0.
Proof.
  rewrite (reduce_bigsum (fun yi i => Math_pow (g yi i) 2) 0).
  apply bigsum_nonneg. intros i. rewrite Math_pow_2. apply square_nonneg.
Qed.

(** Whatever the polynomial fit returns has a goodness of fit of at
    most 1. *)
Lemma polynomialRegression_r2_le_1 (data : list Q) (degree : nat) fit :
  polynomialRegression data degree = Returns fit -> r2 fit <= 1.
Proof.
  intros Hfit.
  destruct (Nat.ltb_spec (length data) (degree + 1)) as [Hlt | Hge].
  - unfold polynomialRegression in Hfit. apply Nat.ltb_lt in Hlt.
    rewrite Hlt in Hfit. injection Hfit as <-. cbn [r2]. lra.
  - destruct (length data) as [| n] eqn:Hlen; [lia |].
    destruct (solveNormalEquations_returns n degree data) as [coefs Hc].
    rewrite <- Hlen in Hc.
    rewrite (polynomialRegression_r2 data degree coefs) in Hfit
      by (try exact Hc; lia).
    injection Hfit as <-. cbn [r2]. cbv zeta.
    apply r2_formula_le_1; apply squares_loop_nonneg.
Qed.

(** X4.  The goodness of fit never exceeds 1, for the polynomial fit of any
    degree and for the linear fit, on any series. *)
Theorem goodness_of_fit_at_most_1 (data : list Q) (degree : nat) :
  (exists fit, polynomialRegression data degree = Returns fit /\ r2 fit <= 1)
  /\ lin_r2 (linearRegression data) <= 1.
Proof.
  split.
  - destruct (polynomialRegression_returns data degree) as [fit Hfit].
    exists fit. split; [exact Hfit |].
    exact (polynomialRegression_r2_le_1 data degree fit Hfit).
  - destruct (Nat.ltb_spec (length data) 2) as [Hlt | Hge].
    + unfold linearRegression. apply Nat.ltb_lt in Hlt. rewrite Hlt.
      cbn [lin_r2]. lra.
    + rewrite linearRegression_r2 by exact Hge. cbv zeta.
      apply r2_formula_le_1.
      * apply (squares_reduce_nonneg
                 (fun yi i => yi - (slope (linearRegression data) * of_nat i
                                    + intercept (linearRegression data)))).
      * apply (squares_reduce_nonneg
                 (fun yi (_ : nat) =>
                    yi - reduce (fun a b (_ : nat) => a + b) data 0
                         / of_nat (length data))).
Qed.

(** A series whose values are all equal to [c]. *)
Lemma constant_at (data : list Q) (c : Q) i :
  Forall (fun y => y == c) data -> (i < length data)%nat -> at_ data i == c.
Proof.
  intros Hall Hi. unfold at_.
  rewrite Forall_forall in Hall. apply Hall. apply nth_In. exact Hi.
Qed.

Lemma constant_mean (data : list Q) (c : Q) :
  Forall (fun y => y == c) data -> data <> [] ->
  sum data / of_nat (length data) == c.
Proof.
  intros Hall Hne. unfold sum. rewrite lin_sumY.
  rewrite (bigsum_ext _ (fun _ => c))
    by (intros i Hi; apply constant_at; assumption).
  rewrite bigsum_const. field.
  assert (0 < of_nat (length data))
    by (apply of_nat_pos; destruct data; [congruence | cbn [length]; lia]).
  lra.
Qed.

(** On a constant series the total sum of squares is 0, whatever the
    coefficients, and the goodness of fit is set to 1. *)
Lemma constant_series_r2 (data : list Q) (c : Q) (degree : nat) :
  Forall (fun y => y == c) data ->
  (degree + 1 <= length data)%nat ->
  exists fit, polynomialRegression data degree = Returns fit /\ r2 fit = 1.
Proof.
  intros Hall Hn.
  assert (Hne : data <> []) by (destruct data; [cbn [length] in Hn; lia | discriminate]).
  pose proof (constant_mean data c Hall Hne) as Hmean.
  destruct (length data) as [| n] eqn:Hlen; [lia |].
  destruct (solveNormalEquations_returns n degree data) as [coefs Hc].
  rewrite <- Hlen in Hc, Hmean.
  eexists. split;
    [apply (polynomialRegression_r2 data degree coefs); [lia | exact Hc] |].
  cbn [r2]. cbv zeta.
  assert (Htot : fold_left
                   (fun t i => t + Math_pow (at_ data i
                                             - sum data / of_nat (length data)) 2)
                   (seq 0 (length data)) 0 == 0).
  { rewrite (fold_left_seq_bigsum
               (fun i => Math_pow (at_ data i
                                   - sum data / of_nat (length data)) 2)).
    rewrite bigsum_zero; [ring |].
    intros i Hi. rewrite Math_pow_2, Hmean, (constant_at data c i Hall Hi). ring. }
  apply Qeq_bool_iff in Htot. rewrite Htot. reflexivity.
Qed.

(** X5.  On a series whose values are all the same whole number z, with
    n * |z| at most 2^53 so that the sums and the mean the code computes
    are exact, the goodness of fit is exactly 1: for the polynomial fit of
    any degree that the series is long enough for, and for the linear fit
    from two points on. *)
Theorem constant_series_perfect_fit (data : list Q) (z : Z) (degree : nat) :
  Forall (fun y => y == inject_Z z) data ->
  (Z.abs z * Z.of_nat (length data) <= 2 ^ 53)%Z ->
  (degree + 1 <= length data)%nat ->
  (exists fit, polynomialRegression data degree = Returns fit /\ r2 fit = 1)
  /\ ((2 <= length data)%nat -> lin_r2 (linearRegression data) = 1).
Proof.
  intros Hall _ Hn.
  assert (Hne : data <> []) by (destruct data; [cbn [length] in Hn; lia | discriminate]).
  pose proof (constant_mean data (inject_Z z) Hall Hne) as Hmean.
  split; [exact (constant_series_r2 data (inject_Z z) degree Hall Hn) |].
  intros H2. rewrite linearRegression_r2 by exact H2. cbv zeta.
  assert (Htot : reduce
                   (fun acc yi (_ : nat) =>
                      acc + Math_pow (yi - reduce (fun a b (_ : nat) => a + b) data 0
                                           / of_nat (length data)) 2)
                   data 0 == 0).
  { rewrite (reduce_bigsum
               (fun yi (_ : nat) =>
                  Math_pow (yi - reduce (fun a b (_ : nat) => a + b) data 0
                                 / of_nat (length data)) 2) 0).
    apply bigsum_zero. intros i Hi. rewrite Math_pow_2.
    change (reduce (fun a b (_ : nat) => a + b) data 0) with (sum data).
    rewrite Hmean.
    change (nth i data 0) with (at_ data i).
    rewrite (constant_at data (inject_Z z) i Hall Hi). ring. }
  apply Qeq_bool_iff in Htot. rewrite Htot. reflexivity.
Qed.

Lemma constant_series_perfect_fit_witness :
  (exists fit, polynomialRegression [5; 5; 5; 5] 3 = Returns fit /\ r2 fit = 1)
  /\ ((2 <= length [5; 5; 5; 5])%nat -> lin_r2 (linearRegression [5; 5; 5; 5]) = 1).
Proof.
  apply (constant_series_perfect_fit [5; 5; 5; 5] 5 3).
  - repeat constructor.
  - cbn [length]. lia.
  - cbn [length]. lia.
Defined.

(** ** The normal equations of the polynomial fit *)

Lemma designMatrix_at n degree k j :
  (k < n)%nat -> (j <= degree)%nat ->
  at2 (designMatrix n degree) k j = Math_pow (of_nat k) j.
Proof.
  intros Hk Hj. unfold at2, designMatrix.
  rewrite (nth_map_seq
             (fun i => map (fun j => Math_pow (of_nat i) j) (seq 0 (S degree)))
             [] n k Hk).
  apply (nth_map_seq (fun j => Math_pow (of_nat k) j) 0 (S degree) j). lia.
Qed.

Lemma XTX_at X p i j :
  (i < p)%nat -> (j < p)%nat ->
  at2 (XTX X p) i j
  = fold_left (fun acc k => acc + at2 X k i * at2 X k j) (seq 0 (length X)) 0.
Proof.
  intros Hi Hj. unfold at2 at 1, XTX.
  rewrite (nth_map_seq
             (fun i => map (fun j => fold_left
                                       (fun acc k => acc + at2 X k i * at2 X k j)
                                       (seq 0 (length X)) 0) (seq 0 p))
             [] p i Hi).
  apply (nth_map_seq
           (fun j => fold_left (fun acc k => acc + at2 X k i * at2 X k j)
                               (seq 0 (length X)) 0) 0 p j Hj).
Qed.

Lemma XTy_at X y p i :
  (i < p)%nat ->
  at_ (XTy X y p) i
  = fold_left (fun acc k => acc + at2 X k i * at_ y k) (seq 0 (length X)) 0.
Proof.
  intros Hi. unfold at_ at 1, XTy.
  apply (nth_map_seq
           (fun i => fold_left (fun acc k => acc + at2 X k i * at_ y k)
                               (seq 0 (length X)) 0) 0 p i Hi).
Qed.

(** Entry (i, j) of X^T X is the sum of the powers k^(i+j) of the time
    indices, written as a product; entry i of X^T y is the sum of
    k^i * y[k]. *)
Lemma normal_matrix_entry n degree i j :
  (i <= degree)%nat -> (j <= degree)%nat ->
  at2 (XTX (designMatrix n degree) (S degree)) i j
  == bigsum (fun k => Math_pow (of_nat k) i * Math_pow (of_nat k) j) n.
Proof.
  intros Hi Hj. rewrite XTX_at by lia. rewrite designMatrix_length.
  rewrite (fold_left_seq_bigsum
             (fun k => at2 (designMatrix n degree) k i
                       * at2 (designMatrix n degree) k j)).
  rewrite Qplus_0_l. apply bigsum_ext.
  intros k Hk. rewrite !designMatrix_at by lia. reflexivity.
Qed.

Lemma normal_vector_entry n degree y i :
  (i <= degree)%nat ->
  at_ (XTy (designMatrix n degree) y (S degree)) i
  == bigsum (fun k => Math_pow (of_nat k) i * at_ y k) n.
Proof.
  intros Hi. rewrite XTy_at by lia. rewrite designMatrix_length.
  rewrite (fold_left_seq_bigsum
             (fun k => at2 (designMatrix n degree) k i * at_ y k)).
  rewrite Qplus_0_l. apply bigsum_ext.
  intros k Hk. rewrite designMatrix_at by lia. reflexivity.
Qed.

Lemma Math_pow_0 x : Math_pow x 0 = 1.
Proof. reflexivity. Qed.

Lemma Math_pow_1 x : Math_pow x 1 = x.
Proof. reflexivity. Qed.

Lemma normal_00 n degree :
  at2 (XTX (designMatrix n degree) (S degree)) 0 0 == of_nat n.
Proof.
  rewrite normal_matrix_entry by lia.
  rewrite (bigsum_ext _ (fun _ => 1))
    by (intros k _; rewrite Math_pow_0; ring).
  rewrite bigsum_const. ring.
Qed.

Lemma normal_11 n degree :
  (1 <= degree)%nat ->
  at2 (XTX (designMatrix n degree) (S degree)) 1 1
  == bigsum (fun k => of_nat k * of_nat k) n.
Proof.
  intros Hd. rewrite normal_matrix_entry by lia.
  apply bigsum_ext. intros k _. rewrite Math_pow_1. reflexivity.
Qed.

Lemma normal_01 n degree :
  (1 <= degree)%nat ->
  at2 (XTX (designMatrix n degree) (S degree)) 0 1 == bigsum of_nat n
  /\ at2 (XTX (designMatrix n degree) (S degree)) 1 0 == bigsum of_nat n.
Proof.
  intros Hd. split; rewrite normal_matrix_entry by lia; apply bigsum_ext;
    intros k _; rewrite Math_pow_0, Math_pow_1; ring.
Qed.

Lemma normal_b0 n degree y :
  at_ (XTy (designMatrix n degree) y (S degree)) 0 == bigsum (at_ y) n.
Proof.
  rewrite normal_vector_entry by lia.
  apply bigsum_ext. intros k _. rewrite Math_pow_0. ring.
Qed.

Lemma normal_b1 n degree y :
  (1 <= degree)%nat ->
  at_ (XTy (designMatrix n degree) y (S degree)) 1
  == bigsum (fun k => of_nat k * at_ y k) n.
Proof.
  intros Hd. rewrite normal_vector_entry by lia.
  apply bigsum_ext. intros k _. rewrite Math_pow_1. reflexivity.
Qed.

Lemma sum_squares_at_least_1 n :
  (2 <= n)%nat -> 1 <= bigsum (fun k => of_nat k * of_nat k) n.
Proof.
  intros Hn. pose proof (sum_squares n) as H.
  pose proof (of_nat_le 2 n Hn) as HN. change (of_nat 2) with 2 in HN.
  set (N := of_nat n) in *.
  set (s := bigsum (fun k => of_nat k * of_nat k) n) in *.
  assert (6 <= (N - 1) * N * (2 * N - 1)) by nra.
  lra.
Qed.

(** The guard [x || 1] on a diagonal entry that is not 0. *)
Lemma or_else_nonzero (row : list Q) (k : nat) :
  ~ nth k row 0 == 0 -> (k < length row)%nat ->
  or_else (get row k) 1 = nth k row 0.
Proof.
  intros Hne Hk. unfold or_else, get.
  rewrite (nth_error_nth' row 0 Hk).
  destruct (Qeq_bool (nth k row 0) 0) eqn:E; [| reflexivity].
  apply Qeq_bool_eq in E. contradiction.
Qed.

Lemma XTX_row_length X p i : (i < p)%nat -> length (nth i (XTX X p) []) = p.
Proof.
  intros Hi. unfold XTX.
  rewrite (nth_map_seq
             (fun i => map (fun j => fold_left
                                       (fun acc k => acc + at2 X k i * at2 X k j)
                                       (seq 0 (length X)) 0) (seq 0 p))
             [] p i Hi).
  rewrite length_map, length_seq. reflexivity.
Qed.

Lemma at_head x l : at_ (x :: l) 0 = x.
Proof. reflexivity. Qed.

Lemma at_second x y l : at_ (x :: y :: l) 1 = y.
Proof. reflexivity. Qed.

(** The two quotients of the fallback, in terms of the series. *)
Lemma fallback_values (data : list Q) (degree : nat) :
  (1 <= degree)%nat -> (2 <= length data)%nat ->
  let X := designMatrix (length data) degree in
  let A := XTX X (S degree) in
  let b := XTy X data (S degree) in
  at_ b 0 / or_else (get (nth 0 A []) 0) 1
  == sum data / of_nat (length data)
  /\ at_ b 1 / or_else (get (nth 1 A []) 1) 1
     == bigsum (fun k => of_nat k * at_ data k) (length data)
        / bigsum (fun k => of_nat k * of_nat k) (length data).
Proof.
  intros Hd Hn. cbv zeta.
  set (n := length data) in *.
  pose proof (normal_00 n degree) as H00.
  pose proof (normal_11 n degree Hd) as H11.
  pose proof (sum_squares_at_least_1 n Hn) as Hsq.
  pose proof (of_nat_pos n ltac:(lia)) as HN.
  unfold at2 in H00, H11.
  rewrite or_else_nonzero; [| rewrite H00; lra | rewrite XTX_row_length; lia ].
  rewrite or_else_nonzero; [| rewrite H11; lra | rewrite XTX_row_length; lia ].
  rewrite H00, H11, normal_b0, (normal_b1 n degree data) by lia.
  unfold sum. rewrite lin_sumY. fold n. split; reflexivity.
Qed.

(** X6.  For every degree of 2 or more and every series long enough for
    it, the constant coefficient of the fit is the mean of the series and
    the linear coefficient is the sum of k * y[k] divided by the sum of
    k^2: neither division is guarded in effect, the diagonal entries being
    n and the sum of squares. *)
Theorem fallback_coefficients (data : list Q) (degree : nat) :
  (2 <= degree)%nat -> (degree + 1 <= length data)%nat ->
  exists fit,
    polynomialRegression data degree = Returns fit
    /\ at_ (coefficients fit) 0 == sum data / of_nat (length data)
    /\ at_ (coefficients fit) 1
       == bigsum (fun k => of_nat k * at_ data k) (length data)
          / bigsum (fun k => of_nat k * of_nat k) (length data).
Proof.
  intros Hd Hn.
  destruct (polynomialRegression_high data degree Hd Hn) as [r Hr].
  cbv zeta in Hr. eexists. split; [exact Hr |].
  cbn [coefficients]. rewrite at_head, at_second.
  apply fallback_values; lia.
Qed.

Lemma fallback_coefficients_witness :
  exists fit,
    polynomialRegression [1; 2; 4; 8] 3 = Returns fit
    /\ at_ (coefficients fit) 0 == sum [1; 2; 4; 8] / of_nat 4
    /\ at_ (coefficients fit) 1
       == bigsum (fun k => of_nat k * at_ [1; 2; 4; 8] k) 4
          / bigsum (fun k => of_nat k * of_nat k) 4.
Proof.
  apply (fallback_coefficients [1; 2; 4; 8] 3); cbn [length]; lia.
Defined.

(** ** The degree-1 fit *)

Lemma XTX_2 X :
  XTX X 2 = [[at2 (XTX X 2) 0 0; at2 (XTX X 2) 0 1];
             [at2 (XTX X 2) 1 0; at2 (XTX X 2) 1 1]].
Proof. reflexivity. Qed.

Lemma XTy_2 X y : XTy X y 2 = [at_ (XTy X y 2) 0; at_ (XTy X y 2) 1].
Proof. reflexivity. Qed.

Lemma gaussianElimination_cramer (a b c d e f : Q) :
  ltb (Qabs (a * d - b * c)) (1 # 10000000000) = false ->
  gaussianElimination [[a; b]; [c; d]] [e; f]
  = Returns [(e * d - f * b) / (a * d - b * c);
             (a * f - c * e) / (a * d - b * c)].
Proof.
  intros Hdet. unfold gaussianElimination. cbn [length Nat.eqb at2 at_ nth].
  rewrite Hdet. reflexivity.
Qed.


(** X7.  On every series of two points or more the polynomial fit of
    degree 1 and the linear convenience fit compute the same line: in
    exact arithmetic the two coefficients of the one are the intercept and
    the slope of the other. *)
Theorem degree_1_fit_is_the_linear_fit (data : list Q) :
  (2 <= length data)%nat ->
  exists fit,
    polynomialRegression data 1 = Returns fit
    /\ length (coefficients fit) = 2%nat
    /\ at_ (coefficients fit) 0 == intercept (linearRegression data)
    /\ at_ (coefficients fit) 1 == slope (linearRegression data).
Proof.
  intros Hn.
  destruct (length data) as [| n'] eqn:Hlen; [lia |].
  pose proof (solveNormalEquations_design n' 1 data) as Hsolve.
  rewrite <- Hlen in *. set (n := length data) in *.
  set (X := designMatrix n 1) in *.
  rewrite XTX_2, XTy_2 in Hsolve.
  pose proof (normal_00 n 1) as H00.
  pose proof (normal_11 n 1 ltac:(lia)) as H11.
  destruct (normal_01 n 1 ltac:(lia)) as [H01 H10].
  pose proof (normal_b0 n 1 data) as Hb0.
  pose proof (normal_b1 n 1 data ltac:(lia)) as Hb1.
  fold X in H00, H11, H01, H10, Hb0, Hb1.
  pose proof (spread_at_least_1 n Hn) as Hspread.
  pose proof (of_nat_pos n ltac:(lia)) as HN.
  destruct (linearRegression_sums data Hn) as [Hslope Hicpt].
  cbv zeta in Hslope, Hicpt. fold n in Hslope, Hicpt.
  set (a00 := at2 (XTX X 2) 0 0) in *. set (a01 := at2 (XTX X 2) 0 1) in *.
  set (a10 := at2 (XTX X 2) 1 0) in *. set (a11 := at2 (XTX X 2) 1 1) in *.
  set (b0 := at_ (XTy X data 2) 0) in *. set (b1 := at_ (XTy X data 2) 1) in *.
  set (N := of_nat n) in *. set (SX := bigsum of_nat n) in *.
  set (SXX := bigsum (fun k => of_nat k * of_nat k) n) in *.
  set (SY := bigsum (at_ data) n) in *.
  set (SXY := bigsum (fun k => of_nat k * at_ data k) n) in *.
  assert (Hdet : a00 * a11 - a01 * a10 == N * SXX - SX * SX)
    by (rewrite H00, H11, H01, H10; reflexivity).
  assert (Hbig : ltb (Qabs (a00 * a11 - a01 * a10)) (1 # 10000000000) = false).
  { apply ltb_nlt. rewrite Hdet. intros Hlt.
    pose proof (Qle_Qabs (N * SXX - SX * SX)) as Habs. lra. }
  rewrite (gaussianElimination_cramer a00 a01 a10 a11 b0 b1 Hbig) in Hsolve.
  set (c0 := (b0 * a11 - b1 * a01) / (a00 * a11 - a01 * a10)) in *.
  set (c1 := (a00 * b1 - a10 * b0) / (a00 * a11 - a01 * a10)) in *.
  assert (Hc1 : c1 == slope (linearRegression data)).
  { rewrite Hslope. subst c1. rewrite Hdet, H00, H10, Hb0, Hb1. reflexivity. }
  assert (Hc0 : c0 == intercept (linearRegression data)).
  { rewrite Hicpt, Hslope. subst c0. rewrite Hdet, H11, H01, Hb0, Hb1.
    field. lra. }
  eexists. split;
    [apply (polynomialRegression_r2 data 1 [c0; c1]); [fold n; lia | exact Hsolve] |].
  cbn [coefficients r2]. rewrite at_head, at_second.
  split; [reflexivity |]. split; [exact Hc0 | exact Hc1].
Qed.

Lemma degree_1_fit_is_the_linear_fit_witness :
  exists fit,
    polynomialRegression [2; 7; 3; 8] 1 = Returns fit
    /\ length (coefficients fit) = 2%nat
    /\ at_ (coefficients fit) 0 == intercept (linearRegression [2; 7; 3; 8])
    /\ at_ (coefficients fit) 1 == slope (linearRegression [2; 7; 3; 8]).
Proof.
  apply (degree_1_fit_is_the_linear_fit [2; 7; 3; 8]). cbn [length]. lia.
Defined.

(** ** The moving average, further *)

(** The window averaged at index [i]: the entries at [lo, hi). *)
Lemma movingAverage_window (data : list Q) (window : Z) (i : nat) :
  (1 <= window)%Z -> (i < length data)%nat ->
  exists lo hi,
    (lo <= i < hi)%nat /\ (hi <= length data)%nat
    /\ nth i (movingAverage data window) 0
       = sum (map (fun j => nth j data 0) (seq lo (hi - lo)))
         / of_nat (length (map (fun j => nth j data 0) (seq lo (hi - lo)))).
Proof.
  intros Hw Hi.
  assert (Hf : (0 <= floor_half window)%Z)
    by (unfold floor_half; Z.div_mod_to_equations; lia).
  assert (Hc : (1 <= ceil_half window)%Z)
    by (unfold ceil_half; Z.div_mod_to_equations; lia).
  exists (Z.to_nat (Z.max 0 (Z.of_nat i - floor_half window))),
         (Z.to_nat (Z.min (Z.of_nat (length data))
                          (Z.of_nat i + ceil_half window))).
  split; [lia |]. split; [lia |].
  unfold movingAverage.
  rewrite nth_map_seq by exact Hi.
  cbv zeta. unfold slice. rewrite !rel_index_inside by lia.
  rewrite firstn_skipn_seq by lia. reflexivity.
Qed.

Lemma Forall_window (P : Q -> Prop) (data : list Q) lo m :
  (lo + m <= length data)%nat -> Forall P data ->
  Forall P (map (fun j => nth j data 0) (seq lo m)).
Proof.
  intros Hm Hall. rewrite Forall_forall in *. intros y Hy.
  apply in_map_iff in Hy. destruct Hy as (j & <- & Hj).
  apply in_seq in Hj. apply Hall. apply nth_In. lia.
Qed.

Lemma mean_within_bounds (l : list Q) (lo hi : Q) :
  l <> [] -> Forall (fun y => lo <= y /\ y <= hi) l ->
  lo <= sum l / of_nat (length l) /\ sum l / of_nat (length l) <= hi.
Proof.
  intros Hne Hall.
  assert (Hsum : of_nat (length l) * lo <= fold_right Qplus 0 l
                 /\ fold_right Qplus 0 l <= of_nat (length l) * hi).
  { clear Hne. induction Hall as [| y l [Hlo Hhi] _ IH].
    - change (of_nat (length [])) with 0. cbn [fold_right]. split; lra.
    - cbn [length fold_right]. rewrite of_nat_S. destruct IH as [IH1 IH2].
      split; lra. }
  assert (Hpos : 0 < of_nat (length l))
    by (apply of_nat_pos; destruct l; [congruence | cbn [length]; lia]).
  rewrite sum_fold_right. destruct Hsum as [H1 H2]. split.
  - apply Qle_shift_div_l; [exact Hpos | lra].
  - apply Qle_shift_div_r; [exact Hpos | lra].
Qed.

(** X8.  Smoothing never leaves the range of the data: when every value
    of the series lies between lo and hi, so does every value of its
    moving average, for every window of 1 or more. *)
Theorem movingAverage_within_bounds (data : list Q) (window : Z) (lo hi : Q) :
  (1 <= window)%Z ->
  Forall (fun y => lo <= y /\ y <= hi) data ->
  Forall (fun y => lo <= y /\ y <= hi) (movingAverage data window).
Proof.
  intros Hw Hall. apply Forall_forall. intros y Hy.
  destruct (In_nth _ _ 0 Hy) as (i & Hi & <-).
  assert (Hlen : length (movingAverage data window) = length data)
    by (unfold movingAverage; rewrite length_map, length_seq; reflexivity).
  rewrite Hlen in Hi.
  destruct (movingAverage_window data window i Hw Hi)
    as (l & h & Hlh & Hh & ->).
  apply mean_within_bounds.
  - destruct (seq l (h - l)) eqn:E; [| discriminate].
    apply (f_equal (@length nat)) in E. rewrite length_seq in E.
    cbn [length] in E. lia.
  - apply Forall_window; [lia | exact Hall].
Qed.

Lemma movingAverage_within_bounds_witness :
  Forall (fun y => 1 <= y /\ y <= 9) (movingAverage [1; 9; 4; 7; 2] 3).
Proof.
  apply (movingAverage_within_bounds [1; 9; 4; 7; 2] 3 1 9); [lia |].
  repeat constructor; discriminate.
Defined.

(** X9.  With window 1 the moving average is the series itself. *)
Theorem movingAverage_identity_at_window_1 (data : list Q) (i : nat) :
  (i < length data)%nat ->
  length (movingAverage data 1) = length data
  /\ nth i (movingAverage data 1) 0 == nth i data 0.
Proof.
  intros Hi. split;
    [unfold movingAverage; rewrite length_map, length_seq; reflexivity |].
  unfold movingAverage.
  rewrite nth_map_seq by exact Hi.
  cbv zeta. change (floor_half 1) with 0%Z. change (ceil_half 1) with 1%Z.
  unfold slice. rewrite !rel_index_inside by lia.
  replace (Z.to_nat (Z.min (Z.of_nat (length data)) (Z.of_nat i + 1))
           - Z.to_nat (Z.max 0 (Z.of_nat i - 0)))%nat with 1%nat by lia.
  replace (Z.to_nat (Z.max 0 (Z.of_nat i - 0))) with i by lia.
  rewrite firstn_skipn_seq by lia.
  cbn [seq map length]. unfold sum, reduce. cbn [reduce_from].
  unfold of_nat. cbn [Z.of_nat Pos.of_succ_nat]. field.
Qed.

Lemma movingAverage_identity_at_window_1_witness :
  length (movingAverage [4; 8; 15] 1) = length [4; 8; 15]
  /\ nth 2 (movingAverage [4; 8; 15] 1) 0 == nth 2 [4; 8; 15] 0.
Proof.
  apply (movingAverage_identity_at_window_1 [4; 8; 15] 2). cbn [length]. lia.
Defined.

(** ** Seasonality *)

Lemma fold_left_invariant {A B} (f : A -> B -> A) (I : A -> Prop) l a :
  I a -> (forall a b, In b l -> I a -> I (f a b)) -> I (fold_left f l a).
Proof.
  revert a. induction l as [| b l IH]; intros a Ha Hstep; [exact Ha |].
  cbn [fold_left]. apply IH.
  - apply Hstep; [left; reflexivity | exact Ha].
  - intros a' b' Hb'. apply Hstep. right. exact Hb'.
Qed.

Lemma set_length_inside a i v : (i < length a)%nat -> length (set a i v) = length a.
Proof. intros Hi. rewrite set_length. lia. Qed.

Lemma bump_length a i : (i < length a)%nat -> length (bump a i) = length a.
Proof.
  intros Hi. unfold bump. rewrite length_app. cbn [length].
  rewrite length_firstn, length_skipn. lia.
Qed.

Lemma Forall_set (P : Q -> Prop) a i v :
  (i < length a)%nat -> Forall P a -> P v -> Forall P (set a i v).
Proof.
  intros Hi Hall Hv. unfold set.
  apply Nat.ltb_lt in Hi. rewrite Hi.
  apply Forall_app. split.
  - rewrite <- (firstn_skipn i a) in Hall. apply Forall_app in Hall. tauto.
  - constructor; [exact Hv |].
    rewrite <- (firstn_skipn (S i) a) in Hall. apply Forall_app in Hall. tauto.
Qed.

(** Writing slot after slot fills the array with the values written. *)
Lemma fill_by_index (g : nat -> Q) (l : list Q) k :
  (k <= length l)%nat ->
  fold_left (fun s i => set s i (g i)) (seq 0 k) l
  = map g (seq 0 k) ++ skipn k l.
Proof.
  induction k as [| k IH]; intros Hk; [reflexivity |].
  rewrite seq_S, fold_left_app, IH by lia. cbn [fold_left Nat.add].
  unfold set.
  assert (Hlen : length (map g (seq 0 k)) = k)
    by (rewrite length_map, length_seq; reflexivity).
  rewrite length_app, Hlen, length_skipn.
  destruct (Nat.ltb_spec k (k + (length l - k))) as [_ | Hge]; [| lia].
  rewrite firstn_app, Hlen, Nat.sub_diag, firstn_all2 by lia.
  cbn [firstn]. rewrite app_nil_r.
  rewrite skipn_app, Hlen, skipn_all2 by lia.
  replace (S k - k)%nat with 1%nat by lia.
  rewrite skipn_skipn. cbn [app Nat.add].
  rewrite map_app. cbn [map]. rewrite <- app_assoc. reflexivity.
Qed.

Lemma fill_all (g : nat -> Q) n :
  fold_left (fun s i => set s i (g i)) (seq 0 n) (zeros n) = map g (seq 0 n).
Proof.
  rewrite fill_by_index by (rewrite zeros_length; lia).
  rewrite skipn_all2 by (rewrite zeros_length; lia).
  apply app_nil_r.
Qed.

(** What [detectSeasonality] returns from twelve points on. *)
Lemma detectSeasonality_long (data : list Q) :
  (12 <= length data)%nat ->
  let sums := seasonalSums (detrend data) (length data) in
  let pattern := seasonalAverages (fst sums) (snd sums) in
  detectSeasonality data
  = {| seasonal := map (fun i => at_ pattern (i mod 12)) (seq 0 (length data));
       trend := movingAverage data 4;
       hasSeasonality :=
         ltb (1 # 10) (reduce (fun s v (_ : nat) => s + v * v) pattern 0 / 12) |}.
Proof.
  intros Hn sums pattern. unfold detectSeasonality.
  destruct (Nat.ltb_spec (length data) 12) as [Hlt | _]; [lia |].
  fold (detrend data).
  change (fold_left _ (seq 0 (length data)) (zeros 12, repeat 0%nat 12))
    with (seasonalSums (detrend data) (length data)).
  fold sums. destruct sums as [pat cnt] eqn:Hs.
  change (fold_left _ (seq 0 12) pat) with (seasonalAverages pat cnt).
  subst pattern. cbn [fst snd].
  rewrite (fill_all (fun i => at_ (seasonalAverages pat cnt) (i mod 12))).
  reflexivity.
Qed.

Lemma seasonalSums_lengths detrended n :
  length (fst (seasonalSums detrended n)) = 12%nat
  /\ length (snd (seasonalSums detrended n)) = 12%nat.
Proof.
  unfold seasonalSums.
  apply (fold_left_invariant
           _ (fun s : list Q * list nat =>
                length (fst s) = 12%nat /\ length (snd s) = 12%nat)).
  - split; reflexivity.
  - intros [pat cnt] i _ [Hp Hc]. cbn [fst snd] in *.
    pose proof (Nat.mod_upper_bound i 12 ltac:(lia)) as Hm.
    split; [rewrite set_length_inside | rewrite bump_length]; lia.
Qed.

Lemma seasonalAverages_length sums counts :
  length sums = 12%nat -> length (seasonalAverages sums counts) = 12%nat.
Proof.
  intros Hs. unfold seasonalAverages.
  apply (fold_left_invariant _ (fun pat : list Q => length pat = 12%nat)).
  - exact Hs.
  - intros pat i Hi Hp. apply in_seq in Hi.
    destruct (0 <? nth i counts 0)%nat; [| exact Hp].
    rewrite set_length_inside; lia.
Qed.

(** X10.  From twelve points on, the seasonal component and the trend
    have one entry per point of the series, and the seasonal component
    repeats with period 12. *)
Theorem seasonal_component_is_periodic (data : list Q) :
  (12 <= length data)%nat ->
  length (seasonal (detectSeasonality data)) = length data
  /\ length (trend (detectSeasonality data)) = length data
  /\ forall i, (i + 12 < length data)%nat ->
               at_ (seasonal (detectSeasonality data)) (i + 12)
               = at_ (seasonal (detectSeasonality data)) i.
Proof.
  intros Hn. rewrite (detectSeasonality_long data Hn). cbv zeta.
  cbn [seasonal trend]. split; [| split].
  - rewrite length_map, length_seq. reflexivity.
  - unfold movingAverage. rewrite length_map, length_seq. reflexivity.
  - intros i Hi. unfold at_ at 1 3.
    rewrite !nth_map_seq by lia.
    replace ((i + 12) mod 12)%nat with (i mod 12)%nat; [reflexivity |].
    rewrite <- (Nat.Div0.add_mod_idemp_r i 12 12).
    rewrite Nat.Div0.mod_same, Nat.add_0_r. reflexivity.
Qed.

Lemma seasonal_component_is_periodic_witness :
  length (seasonal (detectSeasonality [3; 1; 4; 1; 5; 9; 2; 6; 5; 3; 5; 8; 9; 7]))
  = 14%nat
  /\ at_ (seasonal (detectSeasonality [3; 1; 4; 1; 5; 9; 2; 6; 5; 3; 5; 8; 9; 7])) 13
     = at_ (seasonal (detectSeasonality [3; 1; 4; 1; 5; 9; 2; 6; 5; 3; 5; 8; 9; 7])) 1.
Proof.
  destruct (seasonal_component_is_periodic
              [3; 1; 4; 1; 5; 9; 2; 6; 5; 3; 5; 8; 9; 7])
    as (Hlen & _ & Hper); [cbn [length]; lia |].
  split; [exact Hlen |].
  apply (Hper 1%nat). cbn [length]. lia.
Defined.

Lemma movingAverage_constant (data : list Q) (c : Q) (window : Z) (i : nat) :
  Forall (fun y => y == c) data -> (1 <= window)%Z -> (i < length data)%nat ->
  at_ (movingAverage data window) i == c.
Proof.
  intros Hall Hw Hi. unfold at_.
  destruct (movingAverage_window data window i Hw Hi)
    as (l & h & Hlh & Hh & ->).
  apply constant_mean.
  - apply Forall_window; [lia | exact Hall].
  - destruct (seq l (h - l)) eqn:E; [| discriminate].
    apply (f_equal (@length nat)) in E. rewrite length_seq in E.
    cbn [length] in E. lia.
Qed.

Lemma detrend_constant (data : list Q) (c : Q) (i : nat) :
  Forall (fun y => y == c) data -> (i < length data)%nat ->
  at_ (detrend data) i == 0.
Proof.
  intros Hall Hi. unfold detrend, at_ at 1.
  rewrite nth_map_seq by exact Hi.
  rewrite (constant_at data c i Hall Hi).
  rewrite (movingAverage_constant data c 4 i Hall ltac:(lia) Hi). ring.
Qed.

Lemma at_of_zeros (a : list Q) (i : nat) :
  Forall (fun v => v == 0) a -> at_ a i == 0.
Proof.
  intros Hall. unfold at_.
  destruct (Nat.ltb_spec i (length a)) as [Hi | Hi].
  - rewrite Forall_forall in Hall. apply Hall. apply nth_In. exact Hi.
  - rewrite nth_overflow by exact Hi. reflexivity.
Qed.

Lemma seasonalSums_zero (detrended : list Q) (n : nat) :
  (forall i, (i < n)%nat -> at_ detrended i == 0) ->
  Forall (fun v => v == 0) (fst (seasonalSums detrended n)).
Proof.
  intros Hd. unfold seasonalSums.
  apply (fold_left_invariant
           _ (fun s : list Q * list nat =>
                length (fst s) = 12%nat /\ Forall (fun v => v == 0) (fst s))).
  - split; [reflexivity |]. cbn [fst]. unfold zeros.
    apply Forall_forall. intros v Hv. apply repeat_spec in Hv. subst v. reflexivity.
  - intros [pat cnt] i Hi [Hlen Hz]. cbn [fst] in *. apply in_seq in Hi.
    pose proof (Nat.mod_upper_bound i 12 ltac:(lia)) as Hm.
    split; [rewrite set_length_inside; lia |].
    apply Forall_set; [lia | exact Hz |].
    rewrite (at_of_zeros pat _ Hz), (Hd i) by lia. ring.
Qed.

Lemma seasonalAverages_zero (sums : list Q) (counts : list nat) :
  length sums = 12%nat -> Forall (fun v => v == 0) sums ->
  Forall (fun v => v == 0) (seasonalAverages sums counts).
Proof.
  intros Hlen Hz. unfold seasonalAverages.
  apply (fold_left_invariant
           _ (fun pat : list Q =>
                length pat = 12%nat /\ Forall (fun v => v == 0) pat)).
  - split; assumption.
  - intros pat i Hi [Hl Hp]. apply in_seq in Hi.
    destruct (0 <? nth i counts 0)%nat; [| split; assumption].
    split; [rewrite set_length_inside; lia |].
    apply Forall_set; [lia | exact Hp |].
    rewrite (at_of_zeros pat i Hp). unfold Qdiv. ring.
Qed.

(** The averaged pattern of a constant series is 0 throughout. *)
Lemma constant_pattern_zero (data : list Q) (c : Q) :
  Forall (fun y => y == c) data ->
  Forall (fun v => v == 0)
         (seasonalAverages (fst (seasonalSums (detrend data) (length data)))
                           (snd (seasonalSums (detrend data) (length data)))).
Proof.
  intros Hall. apply seasonalAverages_zero.
  - apply seasonalSums_lengths.
  - apply seasonalSums_zero. intros i Hi. apply (detrend_constant data c i Hall Hi).
Qed.

Lemma constant_no_seasonality (data : list Q) (c : Q) :
  Forall (fun y => y == c) data ->
  hasSeasonality (detectSeasonality data) = false.
Proof.
  intros Hall.
  destruct (Nat.ltb_spec (length data) 12) as [Hlt | Hge].
  - unfold detectSeasonality. apply Nat.ltb_lt in Hlt. rewrite Hlt. reflexivity.
  - rewrite (detectSeasonality_long data Hge). cbv zeta. cbn [hasSeasonality].
    pose proof (constant_pattern_zero data c Hall) as Hz.
    set (pattern := seasonalAverages _ _) in *.
    apply ltb_nlt.
    rewrite (reduce_bigsum (fun v (_ : nat) => v * v) 0).
    rewrite bigsum_zero.
    + unfold Qdiv. rewrite Qmult_0_l. intros H. discriminate H.
    + intros i _. change (nth i pattern 0) with (at_ pattern i).
      rewrite (at_of_zeros pattern i Hz). ring.
Qed.



(** ** The forecast loops, further *)

Lemma predictLoop_app env values fit season left i acc c :
  predictLoop env values fit season left i acc c
  = (acc ++ fst (predictLoop env values fit season left i [] c),
     snd (predictLoop env values fit season left i [] c)).
Proof.
  revert i acc c. induction left as [| left IH]; intros i acc c.
  - cbn [predictLoop fst snd]. rewrite app_nil_r. reflexivity.
  - cbn [predictLoop].
    destruct (predictStep env values fit season i c) as [p c'].
    rewrite (IH (S i) (acc ++ [p]) c'), (IH (S i) ([] ++ [p]) c').
    cbn [fst snd app]. rewrite <- app_assoc. reflexivity.
Qed.

Lemma predictLoop_calls env values fit season left i acc c :
  snd (predictLoop env values fit season left i acc c)
  = {| rand_calls := rand_calls c + left; date_calls := date_calls c + left |}.
Proof.
  revert i acc c. induction left as [| left IH]; intros i acc c.
  - cbn [predictLoop snd]. rewrite !Nat.add_0_r. destruct c. reflexivity.
  - cbn [predictLoop]. unfold predictStep. rewrite IH.
    cbn [rand_calls date_calls]. f_equal; lia.
Qed.

Lemma predictLoop_months env values fit season m left i acc c :
  (forall k, Date_getMonth env k = m) ->
  map month (fst (predictLoop env values fit season left i acc c))
  = map month acc
    ++ map (fun j => nth ((m + j) mod 12) monthNames EmptyString) (seq i left).
Proof.
  intros Hm. revert i acc c. induction left as [| left IH]; intros i acc c.
  - cbn [predictLoop fst seq map]. rewrite app_nil_r. reflexivity.
  - cbn [predictLoop]. unfold predictStep. rewrite IH.
    rewrite map_app. cbn [map month seq]. rewrite Hm, <- app_assoc. reflexivity.
Qed.

Lemma linearLoop_app env fit lastIndex lastValue ts nr left i acc c :
  linearLoop env fit lastIndex lastValue ts nr left i acc c
  = (acc ++ fst (linearLoop env fit lastIndex lastValue ts nr left i [] c),
     snd (linearLoop env fit lastIndex lastValue ts nr left i [] c)).
Proof.
  revert i acc c. induction left as [| left IH]; intros i acc c.
  - cbn [linearLoop fst snd]. rewrite app_nil_r. reflexivity.
  - cbn [linearLoop].
    destruct (linearStep env fit lastIndex lastValue ts nr i c) as [p c'].
    rewrite (IH (S i) (acc ++ [p]) c'), (IH (S i) ([] ++ [p]) c').
    cbn [fst snd app]. rewrite <- app_assoc. reflexivity.
Qed.

Lemma linearLoop_calls env fit lastIndex lastValue ts nr left i acc c :
  snd (linearLoop env fit lastIndex lastValue ts nr left i acc c)
  = {| rand_calls := rand_calls c + left; date_calls := date_calls c + left |}.
Proof.
  revert i acc c. induction left as [| left IH]; intros i acc c.
  - cbn [linearLoop snd]. rewrite !Nat.add_0_r. destruct c. reflexivity.
  - cbn [linearLoop]. unfold linearStep. rewrite IH.
    cbn [rand_calls date_calls]. f_equal; lia.
Qed.

Lemma linearLoop_months env fit lastIndex lastValue ts nr m left i acc c :
  (forall k, Date_getMonth env k = m) ->
  map month (fst (linearLoop env fit lastIndex lastValue ts nr left i acc c))
  = map month acc
    ++ map (fun j => nth ((m + j) mod 12) monthNames EmptyString) (seq i left).
Proof.
  intros Hm. revert i acc c. induction left as [| left IH]; intros i acc c.
  - cbn [linearLoop fst seq map]. rewrite app_nil_r. reflexivity.
  - cbn [linearLoop]. unfold linearStep. rewrite IH.
    rewrite map_app. cbn [map month seq]. rewrite Hm, <- app_assoc. reflexivity.
Qed.

Lemma linearLoop_length env fit lastIndex lastValue ts nr left i acc c :
  length (fst (linearLoop env fit lastIndex lastValue ts nr left i acc c))
  = (length acc + left)%nat.
Proof.
  revert i acc c. induction left as [| left IH]; intros i acc c.
  - cbn [linearLoop fst]. lia.
  - cbn [linearLoop]. unfold linearStep. rewrite IH, length_app.
    cbn [length]. lia.
Qed.

Lemma linearLoop_Forall (P : MetricData -> Prop)
      env fit lastIndex lastValue ts nr left i acc c :
  (forall j d, P (fst (linearStep env fit lastIndex lastValue ts nr j d))) ->
  Forall P acc ->
  Forall P (fst (linearLoop env fit lastIndex lastValue ts nr left i acc c)).
Proof.
  intros Hstep. revert i acc c.
  induction left as [| left IH]; intros i acc c Hacc; cbn [linearLoop].
  - exact Hacc.
  - specialize (Hstep i c).
    destruct (linearStep env fit lastIndex lastValue ts nr i c) as [p c'].
    apply IH. apply Forall_app. split; [exact Hacc |].
    constructor; [exact Hstep | constructor].
Qed.

(** X12.  When the clock keeps reporting month m, the labels of the
    points returned by either forecast are the names of the months m+1,
    m+2, ... taken modulo 12, one per step: the month after the current
    one comes first and December is followed by January. *)
Theorem forecast_labels_follow_the_calendar
        env (m : nat) historicalData months c :
  (forall k, Date_getMonth env k = m) ->
  map month (fst (generatePredictions env historicalData months c))
  = map (fun i => nth ((m + i) mod 12) monthNames EmptyString)
        (seq 1 (Z.to_nat months))
  /\ ((3 <= length historicalData)%nat ->
      exists res c',
        generateEnhancedPredictions env historicalData months c = Returns (res, c')
        /\ map month (predictions res)
           = map (fun i => nth ((m + i) mod 12) monthNames EmptyString)
                 (seq 1 (Z.to_nat months))).
Proof.
  intros Hm. split.
  - unfold generatePredictions.
    rewrite (linearLoop_months env _ _ _ _ _ m _ _ _ _ Hm). reflexivity.
  - intros Hn.
    destruct (generateEnhancedPredictions_runs env historicalData months c Hn)
      as (polyResult & _ & Hrun).
    eexists. eexists. split; [exact Hrun |]. cbn [predictions].
    rewrite (predictLoop_months env _ _ _ m _ _ _ _ Hm). reflexivity.
Qed.

Lemma forecast_labels_follow_the_calendar_witness :
  map month (fst (generatePredictions calmAmbient (observe [1; 3; 5]) 3 noCalls))
  = ["Dec"; "Jan"; "Feb"]%string.
Proof.
  destruct (forecast_labels_follow_the_calendar
              calmAmbient 10 (observe [1; 3; 5]) 3 noCalls) as [H _];
    [intros k; reflexivity |].
  rewrite H. reflexivity.
Defined.

(** X13.  Either forecast draws one random number and reads the clock
    once per point it returns, and not at all when the enhanced forecast
    has fewer than three observed points. *)
Theorem forecast_consumes_one_draw_per_point env historicalData months c :
  snd (generatePredictions env historicalData months c)
  = {| rand_calls := rand_calls c + Z.to_nat months;
       date_calls := date_calls c + Z.to_nat months |}
  /\ exists res c',
       generateEnhancedPredictions env historicalData months c = Returns (res, c')
       /\ ((length historicalData < 3)%nat -> c' = c)
       /\ ((3 <= length historicalData)%nat ->
           c' = {| rand_calls := rand_calls c + Z.to_nat months;
                   date_calls := date_calls c + Z.to_nat months |}).
Proof.
  split; [unfold generatePredictions; apply linearLoop_calls |].
  destruct (Nat.ltb_spec (length historicalData) 3) as [Hlt | Hge].
  - exists zeroResult, c.
    split; [apply generateEnhancedPredictions_short; exact Hlt |].
    split; [reflexivity | lia].
  - destruct (generateEnhancedPredictions_runs env historicalData months c Hge)
      as (polyResult & _ & Hrun).
    eexists. eexists. split; [exact Hrun |].
    split; [lia |]. intros _. apply predictLoop_calls.
Qed.

Lemma forecast_consumes_one_draw_per_point_witness :
  exists res c',
    generateEnhancedPredictions calmAmbient (observe [1; 3; 5]) 4 noCalls
    = Returns (res, c')
    /\ c' = {| rand_calls := 4; date_calls := 4 |}.
Proof.
  destruct (forecast_consumes_one_draw_per_point
              calmAmbient (observe [1; 3; 5]) 4 noCalls)
    as (_ & res & c' & Hrun & _ & Hc).
  exists res, c'. split; [exact Hrun |].
  apply Hc. cbn [observe map length]. lia.
Defined.

(** X14.  The forecast never reports a confidence above 1 nor an
    accuracy above 95, and the accuracy is at most 100 times the
    confidence. *)
Theorem forecast_confidence_bounds env historicalData months c :
  exists res c',
    generateEnhancedPredictions env historicalData months c = Returns (res, c')
    /\ confidence res <= 1
    /\ accuracy res <= 95
    /\ accuracy res <= confidence res * 100.
Proof.
  destruct (Nat.ltb_spec (length historicalData) 3) as [Hlt | Hge].
  - exists zeroResult, c.
    split; [apply generateEnhancedPredictions_short; exact Hlt |].
    cbn [zeroResult confidence accuracy]. repeat split; lra.
  - destruct (generateEnhancedPredictions_runs env historicalData months c Hge)
      as (polyResult & Hfit & Hrun).
    eexists. eexists. split; [exact Hrun |]. cbn [confidence accuracy].
    split; [exact (polynomialRegression_r2_le_1 _ _ _ Hfit) |].
    split; [apply Q.le_min_r | apply Q.le_min_l].
Qed.

(** X15.  When the first and the last of the three most recent values
    are the same number v, the trend label is stable if v is 0 or more,
    and up if v is negative. *)
Theorem flat_recent_window_label env historicalData months c (v : Q) :
  (3 <= length historicalData)%nat ->
  nth (length historicalData - 3) (map value historicalData) 0 == v ->
  nth (length historicalData - 1) (map value historicalData) 0 == v ->
  exists res c',
    generateEnhancedPredictions env historicalData months c = Returns (res, c')
    /\ (0 <= v -> trendDirection res = stable)
    /\ (v < 0 -> trendDirection res = up).
Proof.
  intros Hn Hfirst Hlast.
  destruct (generateEnhancedPredictions_runs env historicalData months c Hn)
    as (polyResult & _ & Hrun).
  eexists. eexists. split; [exact Hrun |]. cbn [trendDirection].
  rewrite recent_three by (rewrite length_map; exact Hn).
  rewrite length_map.
  set (x := nth (length historicalData - 3) (map value historicalData) 0) in *.
  set (y := nth (length historicalData - 2) (map value historicalData) 0).
  set (z := nth (length historicalData - 1) (map value historicalData) 0) in *.
  destruct (classifyTrend_spec x y z) as (Hup & _ & Hstable).
  rewrite (fmul_wd x v c1_05 Hfirst), (fmul_wd x v c0_95 Hfirst) in *.
  split.
  - intros Hv. pose proof (fmul_1_05_pos v Hv). pose proof (fmul_0_95_pos v Hv).
    apply Hstable; rewrite Hlast; lra.
  - intros Hv. pose proof (fmul_1_05_neg v Hv).
    apply Hup. rewrite Hlast. lra.
Qed.

Lemma flat_recent_window_label_witness :
  exists res c',
    generateEnhancedPredictions calmAmbient (observe [-100; 3; -100]) 1 noCalls
    = Returns (res, c')
    /\ trendDirection res = up.
Proof.
  destruct (flat_recent_window_label calmAmbient (observe [-100; 3; -100]) 1
                                     noCalls (-100))
    as (res & c' & Hrun & _ & Hup);
    [cbn [observe map length]; lia | reflexivity | reflexivity |].
  exists res, c'. split; [exact Hrun |].
  apply Hup. reflexivity.
Defined.

(** X16.  On a history of three points or more whose values are all the
    same whole number z, with n * |z| at most 2^53 so that the sums and
    means the code computes are exact, the forecast reports confidence 1,
    accuracy 95 and no seasonal pattern. *)
Theorem flat_history_forecast env historicalData months c (z : Z) :
  (3 <= length historicalData)%nat ->
  Forall (fun y => y == inject_Z z) (map value historicalData) ->
  (Z.abs z * Z.of_nat (length historicalData) <= 2 ^ 53)%Z ->
  exists res c',
    generateEnhancedPredictions env historicalData months c = Returns (res, c')
    /\ confidence res = 1
    /\ accuracy res = 95
    /\ seasonalPattern res = false.
Proof.
  intros Hn Hall _.
  destruct (generateEnhancedPredictions_runs env historicalData months c Hn)
    as (polyResult & Hfit & Hrun).
  eexists. eexists. split; [exact Hrun |].
  cbn [confidence accuracy seasonalPattern].
  destruct (constant_series_r2 (map value historicalData) (inject_Z z)
              (Nat.min 3 (length (map value historicalData) - 1)) Hall)
    as (fit & Hfit' & Hr2); [rewrite length_map; lia |].
  rewrite Hfit in Hfit'. injection Hfit' as <-.
  rewrite Hr2. split; [reflexivity |]. split; [reflexivity |].
  exact (constant_no_seasonality _ (inject_Z z) Hall).
Qed.

Lemma flat_history_forecast_witness :
  exists res c',
    generateEnhancedPredictions calmAmbient (observe [5; 5; 5; 5]) 2 noCalls
    = Returns (res, c')
    /\ confidence res = 1
    /\ accuracy res = 95
    /\ seasonalPattern res = false.
Proof.
  apply (flat_history_forecast calmAmbient (observe [5; 5; 5; 5]) 2 noCalls 5).
  - cbn [observe map length]. lia.
  - cbn [observe map value]. repeat constructor.
  - cbn [observe map length]. lia.
Defined.

(** ** The linear forecast *)

(** X17.  On a history of at least one point and for a horizon of 0 or
    more, the linear forecast returns exactly horizon points, each marked
    predicted and none with a negative value. *)
Theorem generatePredictions_points env historicalData months c :
  historicalData <> [] -> (0 <= months)%Z ->
  Z.of_nat (length (fst (generatePredictions env historicalData months c)))
  = months
  /\ Forall (fun p => predicted p = Some true /\ 0 <= value p)
            (fst (generatePredictions env historicalData months c)).
Proof.
  intros _ Hm. unfold generatePredictions. split.
  - rewrite linearLoop_length. cbn [length]. lia.
  - apply linearLoop_Forall; [| constructor].
    intros j d. unfold linearStep. cbn [fst predicted value].
    split; [reflexivity | apply Q.le_max_l].
Qed.

Lemma generatePredictions_points_witness :
  Z.of_nat (length (fst (generatePredictions calmAmbient (observe [9; 4; 1]) 5
                                             noCalls))) = 5%Z
  /\ Forall (fun p => predicted p = Some true /\ 0 <= value p)
            (fst (generatePredictions calmAmbient (observe [9; 4; 1]) 5 noCalls)).
Proof.
  apply (generatePredictions_points calmAmbient (observe [9; 4; 1]) 5 noCalls);
    [discriminate | lia].
Defined.

Lemma linearLoop_values env fit lastIndex lastValue ts nr (g : nat -> Q)
      left i c :
  (forall j d,
      value (fst (linearStep env fit lastIndex lastValue ts nr j d)) == g j) ->
  Forall2 Qeq
          (map value (fst (linearLoop env fit lastIndex lastValue ts nr
                                      left i [] c)))
          (map g (seq i left)).
Proof.
  intros Hstep. revert i c. induction left as [| left IH]; intros i c.
  - constructor.
  - cbn [linearLoop].
    specialize (Hstep i c).
    destruct (linearStep env fit lastIndex lastValue ts nr i c) as [p c'].
    rewrite linearLoop_app. cbn [fst app map seq].
    constructor; [exact Hstep | apply IH].
Qed.

Lemma of_nat_add n m : of_nat (n + m) == of_nat n + of_nat m.
Proof.
  unfold of_nat. rewrite Nat2Z.inj_add, inject_Z_plus. reflexivity.
Qed.

(** X18.  On a history that lies exactly on the line a + b * t, with two
    points or more, and with every random draw at 0.5, the linear forecast
    continues the line: the point for step i has the value a + b * (n-1+i),
    or 0 where the line has gone negative. *)
Theorem linear_history_is_extended env historicalData months c (a b : Q) (n : nat) :
  (2 <= n)%nat ->
  map value historicalData = linearSeries a b n ->
  (forall k, Math_random env k == 1 # 2) ->
  Forall2 Qeq
          (map value (fst (generatePredictions env historicalData months c)))
          (map (fun i => Qmax 0 (a + b * of_nat (n - 1 + i)))
               (seq 1 (Z.to_nat months))).
Proof.
  intros Hn Hvalues Hdraw.
  assert (Hlen : length historicalData = n).
  { rewrite <- (length_map value), Hvalues. apply linearSeries_length. }
  destruct (linearSeries_fit a b n Hn) as [Hs Hi].
  unfold generatePredictions. rewrite Hvalues, Hlen.
  set (fit := linearRegression (linearSeries a b n)) in *.
  set (ts := Qmin _ _). set (nr := 1 - _).
  replace (Z.to_nat (Z.of_nat n - 1)) with (n - 1)%nat by lia.
  rewrite linearSeries_at by lia.
  apply linearLoop_values. intros j d.
  unfold linearStep. cbn [fst value].
  replace (Z.of_nat n - 1 + Z.of_nat j)%Z with (Z.of_nat (n - 1 + j)) by lia.
  fold (of_nat (n - 1 + j)).
  rewrite Hs, Hi, (Hdraw (rand_calls d)), of_nat_add.
  apply Q.max_compat; [reflexivity | ring].
Qed.

Lemma linear_history_is_extended_witness :
  Forall2 Qeq
          (map value (fst (generatePredictions calmAmbient
                                               (observe (linearSeries 10 (-4) 3))
                                               2 noCalls)))
          (map (fun i => Qmax 0 (10 + -4 * of_nat (3 - 1 + i))) (seq 1 2)).
Proof.
  apply (linear_history_is_extended calmAmbient
           (observe (linearSeries 10 (-4) 3)) 2 noCalls 10 (-4) 3).
  - lia.
  - reflexivity.
  - intros k. reflexivity.
Defined.

(** ** The synthetic history *)

Lemma historyLoop_app env PI tf vol left i cur data c :
  historyLoop env PI tf vol left i cur data c
  = (data ++ fst (historyLoop env PI tf vol left i cur [] c),
     snd (historyLoop env PI tf vol left i cur [] c)).
Proof.
  revert i cur data c. induction left as [| left IH]; intros i cur data c.
  - cbn [historyLoop fst snd]. rewrite app_nil_r. reflexivity.
  - cbn [historyLoop].
    destruct (historyStep env PI tf vol i cur c) as [[d cur'] c'].
    rewrite (IH (S i) cur' (data ++ [d]) c'), (IH (S i) cur' ([] ++ [d]) c').
    cbn [fst snd app]. rewrite <- app_assoc. reflexivity.
Qed.

Lemma historyLoop_months env PI tf vol left i cur data c :
  map month (fst (historyLoop env PI tf vol left i cur data c))
  = map month data
    ++ map (fun k => nth k monthNames EmptyString) (seq i left).
Proof.
  revert i cur data c. induction left as [| left IH]; intros i cur data c.
  - cbn [historyLoop fst seq map]. rewrite app_nil_r. reflexivity.
  - cbn [historyLoop]. unfold historyStep. rewrite IH.
    rewrite map_app. cbn [map month seq]. rewrite <- app_assoc. reflexivity.
Qed.

Lemma historyLoop_calls env PI tf vol left i cur data c :
  snd (historyLoop env PI tf vol left i cur data c)
  = {| rand_calls := rand_calls c + left; date_calls := date_calls c |}.
Proof.
  revert i cur data c. induction left as [| left IH]; intros i cur data c.
  - cbn [historyLoop snd]. rewrite Nat.add_0_r. destruct c. reflexivity.
  - cbn [historyLoop]. unfold historyStep. rewrite IH.
    cbn [rand_calls date_calls]. f_equal. lia.
Qed.

Lemma historyLoop_Forall (P : MetricData -> Prop) (I : Q -> Prop)
      env PI tf vol left i cur data c :
  (forall j x d, I x ->
                 P (fst (fst (historyStep env PI tf vol j x d)))
                 /\ I (snd (fst (historyStep env PI tf vol j x d)))) ->
  I cur -> Forall P data ->
  Forall P (fst (historyLoop env PI tf vol left i cur data c)).
Proof.
  intros Hstep. revert i cur data c.
  induction left as [| left IH]; intros i cur data c Hcur Hdata;
    cbn [historyLoop].
  - exact Hdata.
  - specialize (Hstep i cur c Hcur).
    destruct (historyStep env PI tf vol i cur c) as [[d cur'] c'].
    cbn [fst snd] in Hstep. destruct Hstep as [Hd Hcur'].
    apply IH; [exact Hcur' |].
    apply Forall_app. split; [exact Hdata |].
    constructor; [exact Hd | constructor].
Qed.

Lemma generateHistoricalData_monthsOf env PI baseValue trend volatility c :
  map month (fst (generateHistoricalData env PI baseValue trend volatility c))
  = monthNames
  /\ snd (generateHistoricalData env PI baseValue trend volatility c)
     = {| rand_calls := rand_calls c + 12; date_calls := date_calls c |}.
Proof.
  unfold generateHistoricalData. split.
  - rewrite historyLoop_months. reflexivity.
  - apply historyLoop_calls.
Qed.

(** X19.  The synthetic history always has twelve points, labelled Jan
    to Dec in calendar order; no point is marked predicted and every value
    is a whole number; it takes twelve random draws and never reads the
    clock. *)
Theorem generateHistoricalData_shape env PI baseValue trend volatility c :
  map month (fst (generateHistoricalData env PI baseValue trend volatility c))
  = monthNames
  /\ Forall (fun d => predicted d = None /\ exists z, value d = inject_Z z)
            (fst (generateHistoricalData env PI baseValue trend volatility c))
  /\ snd (generateHistoricalData env PI baseValue trend volatility c)
     = {| rand_calls := rand_calls c + 12; date_calls := date_calls c |}.
Proof.
  unfold generateHistoricalData. split; [| split].
  - rewrite historyLoop_months. reflexivity.
  - apply (historyLoop_Forall _ (fun _ => True)); [| exact I | constructor].
    intros j x d _. unfold historyStep. cbn [fst snd predicted value].
    split; [| exact I]. split; [reflexivity |].
    unfold Math_round. eexists. reflexivity.
  - apply historyLoop_calls.
Qed.

Lemma Math_round_nonneg x : 0 <= x -> 0 <= Math_round x.
Proof.
  intros Hx. unfold Math_round. change 0 with (inject_Z 0) at 1.
  rewrite <- Zle_Qle, <- (Qfloor_Z 0). apply Qfloor_resp_le.
  change (inject_Z 0) with 0. lra.
Qed.

(** X20.  With a base value and a volatility that are not negative, a
    volatility of at most 2, random draws between 0 and 1 and a sine that
    is at least -1, no value of the synthetic history is negative. *)
Theorem generateHistoricalData_nonneg env PI baseValue trend volatility c :
  0 <= baseValue -> 0 <= volatility -> volatility <= 2 ->
  (forall x, -1 <= Math_sin env x) ->
  (forall k, 0 <= Math_random env k /\ Math_random env k <= 1) ->
  Forall (fun d => 0 <= value d)
         (fst (generateHistoricalData env PI baseValue trend volatility c)).
Proof.
  intros Hbase Hv0 Hv2 Hsin Hrand. unfold generateHistoricalData.
  apply (historyLoop_Forall _ (fun x => 0 <= x)); [| exact Hbase | constructor].
  intros j x d Hx. unfold historyStep. cbn [fst snd value].
  set (tf := match trend with up => _ | down => _ | stable => _ end).
  assert (Htf : 0 <= tf) by (subst tf; destruct trend; discriminate).
  specialize (Hsin (of_nat j / 12 * 2 * PI)).
  destruct (Hrand (rand_calls d)) as [Hr0 Hr1].
  set (s := Math_sin env (of_nat j / 12 * 2 * PI)) in *.
  set (r := Math_random env (rand_calls d)) in *.
  assert (Hsf : 0 <= 1 + (1 # 10) * s) by lra.
  assert (Hrf : 0 <= 1 + (r - (1 # 2)) * volatility) by nra.
  assert (Hnew : 0 <= x * tf * (1 + (1 # 10) * s) * (1 + (r - (1 # 2)) * volatility)).
  { apply Qmult_le_0_compat; [| exact Hrf].
    apply Qmult_le_0_compat; [| exact Hsf].
    apply Qmult_le_0_compat; assumption. }
  split; [apply Math_round_nonneg; exact Hnew | exact Hnew].
Qed.

Lemma generateHistoricalData_nonneg_witness :
  Forall (fun d => 0 <= value d)
         (fst (generateHistoricalData calmAmbient (22 # 7) 125 down (12 # 100)
                                      noCalls)).
Proof.
  apply (generateHistoricalData_nonneg calmAmbient (22 # 7) 125 down (12 # 100)
                                       noCalls).
  - discriminate.
  - discriminate.
  - discriminate.
  - intros x. discriminate.
  - intros k. split; discriminate.
Defined.

(** X21.  The three mock series have twelve points each; the conversion
    rates keep the labels Jan to Dec and all lie between 0.5 and 8; building
    them takes 36 random draws. *)
Theorem mockData_shape env PI c :
  length (salesRevenue (fst (mockData env PI c))) = 12%nat
  /\ length (customerAcquisitionCost (fst (mockData env PI c))) = 12%nat
  /\ map month (conversionRate (fst (mockData env PI c))) = monthNames
  /\ Forall (fun d => 1 # 2 <= value d /\ value d <= 8)
            (conversionRate (fst (mockData env PI c)))
  /\ snd (mockData env PI c)
     = {| rand_calls := rand_calls c + 36; date_calls := date_calls c |}.
Proof.
  unfold mockData.
  pose proof (generateHistoricalData_monthsOf env PI 850000 up (15 # 100) c) as H1.
  destruct (generateHistoricalData env PI 850000 up (15 # 100) c)
    as [sales c1].
  pose proof (generateHistoricalData_monthsOf env PI 125 down (12 # 100) c1) as H2.
  destruct (generateHistoricalData env PI 125 down (12 # 100) c1) as [cac c2].
  pose proof (generateHistoricalData_monthsOf env PI (32 # 10) up (8 # 100) c2) as H3.
  destruct (generateHistoricalData env PI (32 # 10) up (8 # 100) c2)
    as [conv c3].
  cbn [fst snd] in *. destruct H1 as [M1 C1], H2 as [M2 C2], H3 as [M3 C3].
  cbn [salesRevenue customerAcquisitionCost conversionRate].
  split; [rewrite <- (length_map month), M1; reflexivity |].
  split; [rewrite <- (length_map month), M2; reflexivity |].
  split; [rewrite map_map; cbn [month]; exact M3 |].
  split.
  - apply Forall_forall. intros d Hd. apply in_map_iff in Hd.
    destruct Hd as (d0 & <- & _). cbn [value]. split.
    + apply Q.le_max_l.
    + apply Q.max_lub; [discriminate | apply Q.le_min_l].
  - subst c3 c2 c1. cbn [rand_calls date_calls]. f_equal. lia.
Qed.

(** ** The seasonal index *)

Lemma nth_update {A} (a : list A) (i j : nat) (v d : A) :
  (i < length a)%nat ->
  nth j (firstn i a ++ v :: skipn (S i) a) d
  = if (j =? i)%nat then v else nth j a d.
Proof.
  intros Hi.
  assert (Hlen : length (firstn i a) = i) by (rewrite length_firstn; lia).
  destruct (Nat.eqb_spec j i) as [-> | Hne].
  - rewrite app_nth2, Hlen, Nat.sub_diag by lia. reflexivity.
  - destruct (Nat.lt_ge_cases j i) as [Hlt | Hge].
    + rewrite app_nth1 by lia. rewrite nth_firstn.
      apply Nat.ltb_lt in Hlt. rewrite Hlt. reflexivity.
    + rewrite app_nth2, Hlen by lia.
      destruct (j - i)%nat as [| k] eqn:Hk; [lia |].
      cbn [nth]. rewrite nth_skipn. f_equal. lia.
Qed.

Lemma at_set (a : list Q) (i j : nat) (v : Q) :
  (i < length a)%nat ->
  at_ (set a i v) j = if (j =? i)%nat then v else at_ a j.
Proof.
  intros Hi. unfold at_, set.
  pose proof Hi as Hb. apply Nat.ltb_lt in Hb. rewrite Hb.
  apply nth_update. exact Hi.
Qed.

Lemma nth_bump (a : list nat) (i j : nat) :
  (i < length a)%nat ->
  nth j (bump a i) 0%nat = if (j =? i)%nat then S (nth i a 0%nat) else nth j a 0%nat.
Proof. intros Hi. unfold bump. apply nth_update. exact Hi. Qed.

Lemma seasonalSums_S detrended k :
  seasonalSums detrended (S k)
  = (set (fst (seasonalSums detrended k)) (k mod 12)
         (at_ (fst (seasonalSums detrended k)) (k mod 12) + at_ detrended k),
     bump (snd (seasonalSums detrended k)) (k mod 12)).
Proof.
  unfold seasonalSums. rewrite seq_S, fold_left_app. cbn [fold_left Nat.add].
  destruct (fold_left _ (seq 0 k) _) as [pat cnt]. reflexivity.
Qed.

Lemma residueCount_S n m :
  residueCount (S n) m
  = (residueCount n m + if (n mod 12 =? m)%nat then 1 else 0)%nat.
Proof.
  unfold residueCount. rewrite seq_S, filter_app, length_app.
  cbn [filter Nat.add]. destruct (n mod 12 =? m)%nat; reflexivity.
Qed.

(** After the accumulation loop, slot m holds the sum of the detrended
    values that fall on position m, and the counter their number. *)
Lemma seasonalSums_spec detrended n m :
  at_ (fst (seasonalSums detrended n)) m == residueSum (at_ detrended) n m
  /\ nth m (snd (seasonalSums detrended n)) 0%nat = residueCount n m.
Proof.
  induction n as [| n [IHs IHc]].
  - unfold seasonalSums, residueSum, residueCount, at_, zeros.
    cbn [seq fold_left fst snd bigsum filter length].
    rewrite !nth_repeat. split; reflexivity.
  - rewrite seasonalSums_S. cbn [fst snd].
    destruct (seasonalSums_lengths detrended n) as [Hlp Hlc].
    pose proof (Nat.mod_upper_bound n 12 ltac:(lia)) as Hm.
    rewrite at_set, nth_bump by lia.
    unfold residueSum in *. cbn [bigsum]. rewrite residueCount_S.
    rewrite (Nat.eqb_sym m (n mod 12)).
    destruct (Nat.eqb_spec (n mod 12) m) as [<- | Hne].
    + split; [rewrite IHs; reflexivity | rewrite IHc; lia].
    + split; [rewrite IHs; ring | rewrite IHc; lia].
Qed.

Lemma seasonalAverages_prefix sums counts k :
  length sums = 12%nat -> (k <= 12)%nat ->
  let R := fold_left (fun pat i =>
                        if (0 <? nth i counts 0)%nat
                        then set pat i (at_ pat i / of_nat (nth i counts 0%nat))
                        else pat)
                     (seq 0 k) sums in
  length R = 12%nat
  /\ forall j, at_ R j
               = if ((j <? k) && (0 <? nth j counts 0))%nat
                 then at_ sums j / of_nat (nth j counts 0%nat)
                 else at_ sums j.
Proof.
  intros Hlen. induction k as [| k IH]; intros Hk; cbv zeta.
  - cbn [seq fold_left]. split; [exact Hlen |]. intros j. reflexivity.
  - rewrite seq_S, fold_left_app. cbn [fold_left Nat.add].
    destruct (IH ltac:(lia)) as [HR Hat]. cbv zeta in HR, Hat.
    set (R := fold_left _ (seq 0 k) sums) in *.
    destruct (Nat.ltb_spec 0 (nth k counts 0%nat)) as [Hpos | Hzero].
    + split; [rewrite set_length_inside; lia |].
      intros j. rewrite at_set by lia.
      destruct (Nat.eqb_spec j k) as [-> | Hne].
      * rewrite Hat. rewrite Nat.ltb_irrefl. cbn [andb].
        replace (k <? S k)%nat with true by (symmetry; apply Nat.ltb_lt; lia).
        replace (0 <? nth k counts 0)%nat with true
          by (symmetry; apply Nat.ltb_lt; exact Hpos).
        reflexivity.
      * rewrite Hat.
        replace (j <? S k)%nat with (j <? k)%nat; [reflexivity |].
        destruct (Nat.ltb_spec j k), (Nat.ltb_spec j (S k)); try reflexivity; lia.
    + split; [exact HR |].
      intros j. rewrite Hat.
      destruct (Nat.eqb_spec j k) as [-> | Hne].
      * rewrite Nat.ltb_irrefl.
        replace (0 <? nth k counts 0)%nat with false
          by (symmetry; apply Nat.ltb_ge; exact Hzero).
        rewrite !andb_false_r. reflexivity.
      * replace (j <? S k)%nat with (j <? k)%nat; [reflexivity |].
        destruct (Nat.ltb_spec j k), (Nat.ltb_spec j (S k)); try reflexivity; lia.
Qed.

Lemma residueCount_pos n m : (m < 12)%nat -> (12 <= n)%nat -> (0 < residueCount n m)%nat.
Proof.
  intros Hm Hn. unfold residueCount.
  assert (Hin : In m (filter (fun i => (i mod 12 =? m)%nat) (seq 0 n))).
  { apply filter_In. split; [apply in_seq; lia |].
    rewrite Nat.mod_small by exact Hm. apply Nat.eqb_refl. }
  destruct (filter _ _); [contradiction | cbn [length]; lia].
Qed.

(** X22.  From twelve points on, the seasonal component at index i is
    the mean of the detrended values (value minus moving average of window
    4) over all the indices that share i's position in the year. *)
Theorem seasonal_component_is_positional_mean (data : list Q) (i : nat) :
  (12 <= length data)%nat -> (i < length data)%nat ->
  (0 < residueCount (length data) (i mod 12))%nat
  /\ at_ (seasonal (detectSeasonality data)) i
     == residueSum (fun k => at_ data k - at_ (movingAverage data 4) k)
                   (length data) (i mod 12)
        / of_nat (residueCount (length data) (i mod 12)).
Proof.
  intros Hn Hi.
  pose proof (Nat.mod_upper_bound i 12 ltac:(lia)) as Hm.
  pose proof (residueCount_pos (length data) (i mod 12) Hm Hn) as Hpos.
  split; [exact Hpos |].
  rewrite (detectSeasonality_long data Hn). cbv zeta. cbn [seasonal].
  unfold at_ at 1. rewrite nth_map_seq by exact Hi.
  destruct (seasonalSums_lengths (detrend data) (length data)) as [Hlp _].
  destruct (seasonalAverages_prefix
              (fst (seasonalSums (detrend data) (length data)))
              (snd (seasonalSums (detrend data) (length data)))
              12 Hlp ltac:(lia)) as [_ Hat].
  cbv zeta in Hat. unfold seasonalAverages. rewrite Hat.
  destruct (seasonalSums_spec (detrend data) (length data) (i mod 12))
    as [Hs Hc].
  rewrite Hc.
  replace (i mod 12 <? 12)%nat with true by (symmetry; apply Nat.ltb_lt; exact Hm).
  replace (0 <? residueCount (length data) (i mod 12))%nat with true
    by (symmetry; apply Nat.ltb_lt; exact Hpos).
  cbn [andb]. rewrite Hs.
  apply Qdiv_comp; [| reflexivity].
  unfold residueSum. apply bigsum_ext. intros k Hk.
  destruct (k mod 12 =? i mod 12)%nat; [| reflexivity].
  unfold detrend, at_ at 1. rewrite nth_map_seq by exact Hk. reflexivity.
Qed.

Lemma seasonal_component_is_positional_mean_witness :
  at_ (seasonal (detectSeasonality [3; 1; 4; 1; 5; 9; 2; 6; 5; 3; 5; 8; 9; 7])) 13
  == residueSum (fun k =>
                   at_ [3; 1; 4; 1; 5; 9; 2; 6; 5; 3; 5; 8; 9; 7] k
                   - at_ (movingAverage
                            [3; 1; 4; 1; 5; 9; 2; 6; 5; 3; 5; 8; 9; 7] 4) k)
                14 (13 mod 12)
     / of_nat (residueCount 14 (13 mod 12)).
Proof.
  apply (seasonal_component_is_positional_mean
           [3; 1; 4; 1; 5; 9; 2; 6; 5; 3; 5; 8; 9; 7] 13);
    cbn [length]; lia.
Defined.

(** ** The degree-0 fit *)



(** ** The enhanced forecast on a short history *)

Lemma reduce_from_zeros t m idx acc :
  reduce_from (fun s coef pow => s + coef * Math_pow t pow) (zeros m) idx acc
  == acc.
Proof.
  revert idx acc. induction m as [| m IH]; intros idx acc.
  - reflexivity.
  - cbn [zeros repeat reduce_from]. fold (zeros m). rewrite IH. ring.
Qed.

Lemma polyEval_fallback c0 c1 m t :
  polyEval (c0 :: c1 :: zeros m) t == c0 + c1 * t.
Proof.
  unfold polyEval, reduce. cbn [reduce_from].
  rewrite reduce_from_zeros, Math_pow_0, Math_pow_1. ring.
Qed.

Lemma predictLoop_values env values fit season (g : nat -> Q) left i c :
  (forall j d, value (fst (predictStep env values fit season j d)) == g j) ->
  Forall2 Qeq
          (map value (fst (predictLoop env values fit season left i [] c)))
          (map g (seq i left)).
Proof.
  intros Hstep. revert i c. induction left as [| left IH]; intros i c.
  - constructor.
  - cbn [predictLoop].
    specialize (Hstep i c).
    destruct (predictStep env values fit season i c) as [p c'].
    rewrite predictLoop_app. cbn [fst app map seq].
    constructor; [exact Hstep | apply IH].
Qed.

(** X24.  On a history of 3 to 11 points, with every random draw at 0.5,
    the value forecast for step i is given in closed form: with
    t = n + i - 1, it is (mean + s * t) * (1.2 + 0.1 * sin t), where mean is
    the mean of the series and s the sum of k * y[k] over the sum of k^2,
    and never less than 0.2 times the last observed value. *)
Theorem short_history_forecast_values env historicalData months c :
  (3 <= length historicalData)%nat -> (length historicalData < 12)%nat ->
  (forall k, Math_random env k == 1 # 2) ->
  let values := map value historicalData in
  let n := length historicalData in
  exists res c',
    generateEnhancedPredictions env historicalData months c = Returns (res, c')
    /\ Forall2 Qeq
         (map value (predictions res))
         (map (fun i =>
                 let t := of_nat (n + i - 1) in
                 Qmax ((sum values / of_nat n
                        + bigsum (fun k => of_nat k * at_ values k) n
                          / bigsum (fun k => of_nat k * of_nat k) n * t)
                       * ((12 # 10) + Math_sin env t * (1 # 10)))
                      (last values 0 * (2 # 10)))
              (seq 1 (Z.to_nat months))).
Proof.
  intros Hn Hshort Hdraw values n.
  destruct (generateEnhancedPredictions_runs env historicalData months c Hn)
    as (polyResult & Hfit & Hrun).
  fold values in Hfit, Hrun.
  assert (Hlen : length values = n) by (subst values n; apply length_map).
  exists {| predictions :=
              fst (predictLoop env values polyResult (detectSeasonality values)
                               (Z.to_nat months) 1 [] c);
            confidence := r2 polyResult;
            trendDirection := classifyTrend (slice_from values (-3));
            seasonalPattern := hasSeasonality (detectSeasonality values);
            accuracy := Qmin (r2 polyResult * 100) 95 |}.
  eexists. split; [exact Hrun |]. cbn [predictions].
  destruct (polynomialRegression_high values (Nat.min 3 (length values - 1)))
    as [r Hhigh]; [lia | lia |].
  cbv zeta in Hhigh. rewrite Hfit in Hhigh. injection Hhigh as Hpoly.
  destruct (fallback_values values (Nat.min 3 (length values - 1)))
    as [Hc0 Hc1]; [lia | lia |].
  cbv zeta in Hc0, Hc1. rewrite Hlen in Hc0, Hc1.
  assert (Hseason : hasSeasonality (detectSeasonality values) = false).
  { unfold detectSeasonality.
    replace (length values <? 12)%nat with true
      by (symmetry; apply Nat.ltb_lt; lia).
    reflexivity. }
  apply predictLoop_values. intros j d.
  unfold predictStep. cbn [fst value]. rewrite Hseason. cbn [andb].
  rewrite Hpoly. cbn [coefficients r2].
  change (at_ values (length values - 1))
    with (nth (length values - 1) values 0).
  rewrite (nth_pred_last values 0)
    by (destruct values; [cbn [length] in Hlen; lia | discriminate]).
  rewrite Hlen.
  apply Q.max_compat; [| reflexivity].
  rewrite polyEval_fallback, Hc0, Hc1, (Hdraw (rand_calls d)). ring.
Qed.

Lemma short_history_forecast_values_witness :
  exists res c',
    generateEnhancedPredictions calmAmbient (observe [4; 6; 11]) 2 noCalls
    = Returns (res, c')
    /\ Forall2 Qeq
         (map value (predictions res))
         (map (fun i =>
                 let t := of_nat (3 + i - 1) in
                 Qmax ((sum (map value (observe [4; 6; 11])) / of_nat 3
                        + bigsum (fun k => of_nat k
                                           * at_ (map value (observe [4; 6; 11])) k) 3
                          / bigsum (fun k => of_nat k * of_nat k) 3 * t)
                       * ((12 # 10) + Math_sin calmAmbient t * (1 # 10)))
                      (last (map value (observe [4; 6; 11])) 0 * (2 # 10)))
              (seq 1 (Z.to_nat 2))).
Proof.
  apply (short_history_forecast_values calmAmbient (observe [4; 6; 11]) 2 noCalls).
  - cbn [observe map length]. lia.
  - cbn [observe map length]. lia.
  - intros k. reflexivity.
Defined.

(** ** Raising *)

(** X25.  The solver raises on an empty system, and so does the builder
    of the normal equations on an empty design matrix, which is the design
    matrix of the empty series.  For a degree of 0 or more the guard of the
    polynomial fit keeps the empty series away from the builder: the fit
    returns for every series and every such degree, and the enhanced
    forecast, which fits degree min(3, n-1) on three points or more,
    returns for every history, horizon and ambient.  (A negative degree is
    not a degree of this model: with it the guard lets the empty series
    through.) *)
Theorem exported_functions_never_raise :
  gaussianElimination [] [] = Throws
  /\ (forall degree, solveNormalEquations (designMatrix 0 degree) [] = Throws)
  /\ (forall data (degree : nat),
        exists fit, polynomialRegression data degree = Returns fit)
  /\ (forall env historicalData months c,
        exists res c',
          generateEnhancedPredictions env historicalData months c
          = Returns (res, c')).
Proof.
  split; [reflexivity |]. split; [intros degree; reflexivity |]. split.
  - intros data degree. apply polynomialRegression_returns.
  - intros env historicalData months c.
    destruct (Nat.ltb_spec (length historicalData) 3) as [Hlt | Hge].
    + exists zeroResult, c. apply generateEnhancedPredictions_short. exact Hlt.
    + destruct (generateEnhancedPredictions_runs env historicalData months c Hge)
        as (polyResult & _ & Hrun).
      eexists. eexists. exact Hrun.
Qed.
